(** * FnO dashboard backend: option-chain builder, batched quote fetch,
      live tick buffer and scanner selection

    A shallow embedding of [src/backend/app.py].  Each handler is a Rocq
    function over explicit inputs: the query parameters, the current date
    (the value of [datetime.now().date()]), and a record of the broker
    operations the handler calls.  A broker operation that raises is an
    operation that returns [Raise e].

    Conventions.
    - A dictionary row read with [d.get(k, default)] is a record whose field
      [k] is an [option]; [None] is the absent key.  A row read with [d[k]]
      only has a plain field.
    - Prices, strikes, volumes and open interest are integers (prices in the
      smallest currency unit).  The code only stores, compares and defaults
      them, it does no arithmetic on them.
    - Strings are byte strings; [upper] and the digit tests are the ASCII
      ones.
    - [require_auth] has already let the request through. *)

From Stdlib Require Import ZArith Lia Ascii.
From stdpp Require Import gmap strings list sorting pretty.

Open Scope Z_scope.

(** ** Exceptions, results and HTTP responses *)

Inductive exn :=
  | ValueError (msg : string)
  | KeyError (key : string)
  | IndexError
  | KiteException (msg : string).

Inductive result (A : Type) :=
  | Ok (a : A)
  | Raise (e : exn).
Arguments Ok {A} a.
Arguments Raise {A} e.

Global Instance result_ret : MRet result := λ A a, Ok a.

Global Instance result_bind : MBind result := λ A B k r,
  match r with
  | Ok a => k a
  | Raise e => Raise e
  end.

(** [for x in l: s = body(s, x)], where an exception raised by the body
    ends the loop. *)
Fixpoint for_each {S A} (body : S → A → result S) (l : list A) (s : S)
  : result S :=
  match l with
  | [] => Ok s
  | x :: l' => s' ← body s x; for_each body l' s'
  end.

(** The body of an error response is [{"error": msg}]: either a literal
    message or [str(e)] of a caught exception. *)
Inductive error_body :=
  | Message (msg : string)
  | StrOf (e : exn).

Inductive response (A : Type) :=
  | Json (body : A)
  | JsonError (status : Z) (err : error_body).
Arguments Json {A} body.
Arguments JsonError {A} status err.

Definition status_code {A} (r : response A) : Z :=
  match r with
  | Json _ => 200
  | JsonError st _ => st
  end.

(** ** Calendar dates and [datetime.strptime(s, "%Y-%m-%d").date()] *)

Record date := mkDate { year : Z; month : Z; day : Z }.

Global Instance date_eq_dec : EqDecision date.
Proof. solve_decision. Defined.

(** The order of [datetime.date]: by year, then month, then day. *)
Definition date_le (a b : date) : Prop :=
  year a < year b ∨
  (year a = year b ∧
   (month a < month b ∨ (month a = month b ∧ day a ≤ day b))).

Global Instance date_le_dec a b : Decision (date_le a b).
Proof. unfold date_le. apply _. Defined.

Definition is_leap (y : Z) : bool :=
  (y mod 4 =? 0) && (negb (y mod 100 =? 0) || (y mod 400 =? 0)).

Definition days_in_month (y m : Z) : Z :=
  if m =? 2 then (if is_leap y then 29 else 28)
  else if (m =? 4) || (m =? 6) || (m =? 9) || (m =? 11) then 30
  else 31.

Definition digit_value (c : ascii) : option Z :=
  let n := Z.of_nat (nat_of_ascii c) in
  if (48 <=? n) && (n <=? 57) then Some (n - 48) else None.

(** [%Y] is [\d\d\d\d]. *)
Definition year_field (cs : list ascii) : option Z :=
  match cs with
  | [a; b; c; d] =>
      a' ← digit_value a; b' ← digit_value b;
      c' ← digit_value c; d' ← digit_value d;
      Some (1000 * a' + 100 * b' + 10 * c' + d')
  | _ => None
  end.

(** [%m] is [1[0-2]|0[1-9]|[1-9]]. *)
Definition month_field (cs : list ascii) : option Z :=
  match cs with
  | [a] => a' ← digit_value a; if 1 <=? a' then Some a' else None
  | [a; b] =>
      a' ← digit_value a; b' ← digit_value b;
      let m := 10 * a' + b' in
      if (1 <=? m) && (m <=? 12) then Some m else None
  | _ => None
  end.

(** [%d] is [3[0-1]|[1-2]\d|0[1-9]|[1-9]| [1-9]]. *)
Definition day_field (cs : list ascii) : option Z :=
  match cs with
  | [a] => a' ← digit_value a; if 1 <=? a' then Some a' else None
  | [a; b] =>
      b' ← digit_value b;
      if decide (a = " "%char) then (if 1 <=? b' then Some b' else None)
      else
        a' ← digit_value a;
        let d := 10 * a' + b' in
        if (1 <=? d) && (d <=? 31) then Some d else None
  | _ => None
  end.

(** Cut a character list at the first ["-"]. *)
Fixpoint cut_dash (cs : list ascii) : option (list ascii * list ascii) :=
  match cs with
  | [] => None
  | c :: cs' =>
      if decide (c = "-"%char) then Some ([], cs')
      else '(a, b) ← cut_dash cs'; Some (c :: a, b)
  end.

Definition match_ymd (s : string) : option (Z * Z * Z) :=
  '(ys, r1) ← cut_dash (String.list_ascii_of_string s);
  '(ms, ds) ← cut_dash r1;
  y ← year_field ys; m ← month_field ms; d ← day_field ds;
  Some (y, m, d).

(** The whole string has to match the format, and the fields have to form
    a date of the proleptic Gregorian calendar with year at least 1;
    everything else is a [ValueError]. *)
Definition strptime_ymd (s : string) : result date :=
  match match_ymd s with
  | None => Raise (ValueError ("time data does not match format: " +:+ s))
  | Some (y, m, d) =>
      if (1 <=? y) && (d <=? days_in_month y m) then Ok (mkDate y m d)
      else Raise (ValueError ("date out of range: " +:+ s))
  end.

(** ** [str.upper], ASCII *)

Definition upper_ascii (c : ascii) : ascii :=
  let n := nat_of_ascii c in
  if ((97 <=? n) && (n <=? 122))%nat then ascii_of_nat (n - 32) else c.

Fixpoint upper (s : string) : string :=
  match s with
  | EmptyString => EmptyString
  | String c s' => String (upper_ascii c) (upper s')
  end.

(** ** [str.split(",")], [str.strip] and [int], ASCII *)

Fixpoint split_comma (s : string) : list string :=
  match s with
  | EmptyString => [EmptyString]
  | String c s' =>
      if decide (c = ","%char) then EmptyString :: split_comma s'
      else match split_comma s' with
           | h :: t => String c h :: t
           | [] => [String c EmptyString]
           end
  end.

Definition py_is_space (c : ascii) : bool :=
  let n := nat_of_ascii c in
  ((9 <=? n) && (n <=? 13) || (28 <=? n) && (n <=? 32))%nat.

Fixpoint lstrip (s : string) : string :=
  match s with
  | EmptyString => EmptyString
  | String c s' => if py_is_space c then lstrip s' else s
  end.

Definition strip (s : string) : string :=
  String.rev (lstrip (String.rev (lstrip s))).

Definition is_digit (c : ascii) : bool := bool_decide (is_Some (digit_value c)).

(** Decimal digits; a single underscore may stand between two digits. *)
Fixpoint int_digits (acc : Z) (cs : list ascii) : option Z :=
  match cs with
  | [] => Some acc
  | c :: cs' =>
      if decide (c = "_"%char) then
        match cs' with
        | d :: _ => if is_digit d then int_digits acc cs' else None
        | [] => None
        end
      else d ← digit_value c; int_digits (10 * acc + d) cs'
  end.

Definition int_body (cs : list ascii) : option Z :=
  match cs with
  | c :: _ => if is_digit c then int_digits 0 cs else None
  | [] => None
  end.

(** [int(s)]: surrounding white space, an optional sign, decimal digits. *)
Definition py_int (s : string) : result Z :=
  let r :=
    match String.list_ascii_of_string (strip s) with
    | c :: cs =>
        if decide (c = "-"%char) then Z.opp <$> int_body cs
        else if decide (c = "+"%char) then int_body cs
        else int_body (c :: cs)
    | [] => None
    end in
  match r with
  | Some z => Ok z
  | None => Raise (ValueError ("invalid literal for int(): " +:+ s))
  end.

(** A string that does not begin with white space. *)
Definition starts_clean (s : string) : Prop :=
  match s with
  | EmptyString => True
  | String c _ => py_is_space c = false
  end.

(** ** Instruments (rows of [kite.instruments("NFO")]) *)

Record Instrument := {
  instrument_token : Z;
  tradingsymbol : string;
  name : option string;
  instrument_type : option string;
  expiry : option date;
  strike : option Z;
  lot_size : option Z
}.

Global Instance Instrument_eq_dec : EqDecision Instrument.
Proof. solve_decision. Defined.

(** ** Quotes (values of [kite.quote(ids)]) *)

Record Level := { price : option Z }.

Record Depth := {
  buy : option (list Level);
  sell : option (list Level)
}.

Record Quote := {
  q_last_price : option Z;
  q_oi : option Z;
  q_volume : option Z;
  q_depth : option Depth
}.

(** ** The broker operations the handlers call

    An operation is a function of its arguments: during one request the
    handlers never repeat a call they expect a different answer from. *)

Record LtpEntry := { ltp_last_price : option Z }.

Record Kite := {
  instruments : string → result (list Instrument);
  quote : list string → result (gmap string Quote);
  ltp : list string → result (list (string * LtpEntry))
}.

(** ** Option chain builder ([get_option_chain]) *)

Module OptionChain.

(** [i.get("name", "").upper() == symbol_upper and
     i.get("instrument_type") in ("CE", "PE")] *)
Definition is_option_of (symbol_upper : string) (i : Instrument) : Prop :=
  upper (default "" (name i)) = symbol_upper ∧
  instrument_type i ∈ [Some "CE"; Some "PE"].

Global Instance is_option_of_dec s i : Decision (is_option_of s i).
Proof. unfold is_option_of. apply _. Defined.

(** [sorted(set(o["expiry"] for o in options if o.get("expiry")))].
    The iteration order of the set does not show: its members are distinct
    and the order on dates is total. *)
Definition expiries_of (options : list Instrument) : list date :=
  merge_sort date_le (remove_dups (omap expiry options)).

(** The expiry chosen when the request names none: [future_expiries[0]] if
    there is an expiry on or after [today], else [expiries[-1]] if there is
    an expiry at all. *)
Definition nearest_expiry (today : date) (options : list Instrument)
  : option date :=
  let expiries := expiries_of options in
  let future_expiries := filter (date_le today) expiries in
  match future_expiries with
  | nearest :: _ => Some nearest
  | [] => last expiries
  end.

Definition with_expiry (e : date) (options : list Instrument)
  : list Instrument :=
  filter (λ o, expiry o = Some e) options.

(** The [if expiry_str: ... else: ...] block.  An empty [expiry_str] is
    falsy, like an absent one. *)
Definition filter_by_expiry (expiry_str : option string) (today : date)
    (options : list Instrument) : result (list Instrument) :=
  match expiry_str with
  | Some (String c s) =>
      target_expiry ← strptime_ymd (String c s);
      Ok (with_expiry target_expiry options)
  | _ =>
      match nearest_expiry today options with
      | Some e => Ok (with_expiry e options)
      | None => Ok options
      end
  end.

(** *** Batched quote fetch *)

(** [range(start, stop, step)] for a positive step, by the loop that
    defines it; [stop] iterations are enough. *)
Fixpoint range_from (fuel i stop step : nat) : list nat :=
  match fuel with
  | O => []
  | S fuel' =>
      if (i <? stop)%nat then i :: range_from fuel' (i + step) stop step
      else []
  end.

Definition py_range (start stop step : nat) : list nat :=
  range_from stop start stop step.

Definition batch_size : nat := 200.

Definition quote_id (o : Instrument) : string := "NFO:" +:+ tradingsymbol o.

(** [batch = tokens[i : i + batch_size]] and the identifiers of the options
    whose token is in the batch.  [str] is injective on integers, so the
    test [str(o["instrument_token"]) in batch] is membership of the token. *)
Definition batch_at (tokens : list Z) (i : nat) : list Z :=
  take batch_size (drop i tokens).

Definition instrument_ids (options : list Instrument) (batch : list Z)
  : list string :=
  quote_id <$> filter (λ o, instrument_token o ∈ batch) options.

(** One iteration: the call is logged, its result is merged with
    [dict.update] (the new entries win) or, when the call raises, dropped. *)
Definition fetch_batch (kite : Kite) (options : list Instrument)
    (tokens : list Z) (st : gmap string Quote * list (list string))
    (i : nat) : gmap string Quote * list (list string) :=
  let ids := instrument_ids options (batch_at tokens i) in
  match quote kite ids with
  | Ok quotes => (quotes ∪ st.1, st.2 ++ [ids])
  | Raise qe => (st.1, st.2 ++ [ids])
  end.

(** Returns [all_quotes] and the list of provider calls in the order they
    were issued. *)
Definition fetch_quotes (kite : Kite) (options : list Instrument)
  : gmap string Quote * list (list string) :=
  let tokens := instrument_token <$> options in
  foldl (fetch_batch kite options tokens) (∅, [])
        (py_range 0 (length tokens) batch_size).

(** The answers of the calls that did not raise, in call order. *)
Definition successes (kite : Kite) (calls : list (list string))
  : list (gmap string Quote) :=
  omap (λ ids, match quote kite ids with
               | Ok quotes => Some quotes
               | Raise _ => None
               end) calls.

(** [all_quotes] after [all_quotes.update(quotes)] for each of a list of
    answers. *)
Definition update_all (answers : list (gmap string Quote))
  : gmap string Quote :=
  foldl (λ all_quotes quotes, quotes ∪ all_quotes) ∅ answers.

(** The batches of identifiers, one per index of the loop. *)
Definition batches (options : list Instrument) : list (list string) :=
  let tokens := instrument_token <$> options in
  (λ i, instrument_ids options (batch_at tokens i))
    <$> py_range 0 (length tokens) batch_size.

(** The provider answers a call with quotes of identifiers of that call
    only. *)
Definition keyed_by_request (kite : Kite) : Prop :=
  ∀ ids quotes k,
    quote kite ids = Ok quotes → is_Some (quotes !! k) → k ∈ ids.

(** The least [c] with [n ≤ c * d]. *)
Definition ceil_div (n d : nat) : nat :=
  (n / d + (if n mod d =? 0 then 0 else 1))%nat.

(** *** Spot price *)

Definition spot_id (symbol_upper : string) : string :=
  if decide (symbol_upper ∈ ["NIFTY"; "NIFTY 50"]) then "NSE:NIFTY 50"
  else if decide (symbol_upper ∈ ["BANKNIFTY"; "NIFTY BANK"])
       then "NSE:NIFTY BANK"
  else "NSE:" +:+ symbol_upper.

(** Every exception of the lookup is swallowed and leaves [spot_price = 0]. *)
Definition get_spot_price (kite : Kite) (symbol_upper : string) : Z :=
  match ltp kite [spot_id symbol_upper] with
  | Ok ((_, e) :: _) => default 0 (ltp_last_price e)
  | Ok [] => 0
  | Raise _ => 0
  end.

(** *** Rows *)

Record Leg := {
  leg_instrument_token : Z;
  leg_tradingsymbol : string;
  leg_last_price : Z;
  leg_oi : Z;
  leg_volume : Z;
  leg_bid : Z;
  leg_ask : Z;
  leg_lot_size : Z
}.

(** [{"strike": strike, "CE": None, "PE": None}]; [other] holds a leg
    stored under any other key.  The builder only stores legs of contracts
    it has filtered to ["CE"] and ["PE"], so [other] stays empty there. *)
Record Row := {
  row_strike : Z;
  CE : option Leg;
  PE : option Leg;
  other : list (string * Leg)
}.

Definition new_row (k : Z) : Row :=
  {| row_strike := k; CE := None; PE := None; other := [] |}.

(** [row[opt_type] = leg] *)
Definition set_leg (opt_type : string) (leg : Leg) (r : Row) : Row :=
  if decide (opt_type = "CE") then
    {| row_strike := row_strike r; CE := Some leg; PE := PE r;
       other := other r |}
  else if decide (opt_type = "PE") then
    {| row_strike := row_strike r; CE := CE r; PE := Some leg;
       other := other r |}
  else
    {| row_strike := row_strike r; CE := CE r; PE := PE r;
       other := (opt_type, leg) :: other r |}.

(** [row[key]] for the two leg keys. *)
Definition leg_at (key : string) (r : Row) : option Leg :=
  if decide (key = "CE") then CE r
  else if decide (key = "PE") then PE r
  else None.

(** A dictionary is truthy when it has a key. *)
Definition depth_truthy (d : Depth) : bool :=
  bool_decide (is_Some (buy d) ∨ is_Some (sell d)).

(** [quote.get("depth", {}).get(side, [{}])[0].get("price", 0)
     if quote.get("depth") else 0]; [quote = None] is the empty
    dictionary that [all_quotes.get(quote_key, {})] gives for a missing
    key. *)
Definition top_of_book (quote : option Quote)
    (side : Depth → option (list Level)) : result Z :=
  match quote ≫= q_depth with
  | Some d =>
      if depth_truthy d then
        match side d with
        | None => Ok 0
        | Some [] => Raise IndexError
        | Some (l :: _) => Ok (default 0 (price l))
        end
      else Ok 0
  | None => Ok 0
  end.

(** A quote whose depth, if it has one, lists at least one level on each
    side it has. *)
Definition depth_ok (quote : Quote) : Prop :=
  ∀ d, q_depth quote = Some d → buy d ≠ Some [] ∧ sell d ≠ Some [].

Definition make_leg (all_quotes : gmap string Quote) (opt : Instrument)
  : result Leg :=
  let ts := tradingsymbol opt in
  let quote := all_quotes !! ("NFO:" +:+ ts) in
  bid ← top_of_book quote buy;
  ask ← top_of_book quote sell;
  Ok {| leg_instrument_token := instrument_token opt;
        leg_tradingsymbol := ts;
        leg_last_price := default 0 (quote ≫= q_last_price);
        leg_oi := default 0 (quote ≫= q_oi);
        leg_volume := default 0 (quote ≫= q_volume);
        leg_bid := bid;
        leg_ask := ask;
        leg_lot_size := default 0 (lot_size opt) |}.

Definition strike_of (opt : Instrument) : Z := default 0 (strike opt).
Definition type_of (opt : Instrument) : string :=
  default "" (instrument_type opt).

(** The body of [for opt in options]; the state is [chain] and
    [expiry_date] (the date stands for its [isoformat()]). *)
Definition chain_step (all_quotes : gmap string Quote)
    (st : gmap Z Row * option date) (opt : Instrument)
  : result (gmap Z Row * option date) :=
  let strike := strike_of opt in
  let chain :=
    match st.1 !! strike with
    | None => <[strike := new_row strike]> st.1
    | Some _ => st.1
    end in
  leg ← make_leg all_quotes opt;
  let chain := alter (set_leg (type_of opt) leg) strike chain in
  let expiry_date :=
    match st.2, expiry opt with
    | None, Some e => Some e
    | _, _ => st.2
    end in
  Ok (chain, expiry_date).

Definition build_chain (all_quotes : gmap string Quote)
    (options : list Instrument) (st : gmap Z Row * option date)
  : result (gmap Z Row * option date) :=
  for_each (chain_step all_quotes) options st.

Definition strike_le (a b : Row) : Prop := row_strike a ≤ row_strike b.

Global Instance strike_le_dec a b : Decision (strike_le a b).
Proof. unfold strike_le. apply _. Defined.

(** [sorted(chain.values(), key=lambda x: x["strike"])].  The rows of a
    dictionary have distinct keys, so the order in which [values()] lists
    them does not show in the sorted list. *)
Definition sorted_chain (chain : gmap Z Row) : list Row :=
  merge_sort strike_le ((map_to_list chain).*2).

Record ChainResponse := {
  r_symbol : string;
  r_spot_price : Z;
  r_expiry : option date;
  r_chain : list Row
}.

(** The filtered [options] the chain is built from (steps 1 and 2), or the
    response that ends the request early. *)
Definition select_options (instruments : list Instrument)
    (symbol : string) (expiry_str : option string) (today : date)
  : result (list Instrument + response ChainResponse) :=
  let symbol_upper := upper symbol in
  let options := filter (is_option_of symbol_upper) instruments in
  if decide (options = []) then
    Ok (inr (JsonError 404 (Message ("No options found for " +:+ symbol))))
  else
    options ← filter_by_expiry expiry_str today options;
    if decide (options = []) then
      Ok (inr (JsonError 404 (Message "No options for selected expiry")))
    else Ok (inl options).

(** The body of the [try] block. *)
Definition try_option_chain (kite : Kite) (today : date) (symbol : string)
    (expiry_str : option string) : result (response ChainResponse) :=
  instruments ← instruments kite "NFO";
  sel ← select_options instruments symbol expiry_str today;
  match sel with
  | inr resp => Ok resp
  | inl options =>
      let all_quotes := (fetch_quotes kite options).1 in
      let spot_price := get_spot_price kite (upper symbol) in
      '(chain, expiry_date) ← build_chain all_quotes options (∅, None);
      Ok (Json {| r_symbol := upper symbol;
                  r_spot_price := spot_price;
                  r_expiry := expiry_date;
                  r_chain := sorted_chain chain |})
  end.

Definition get_option_chain (kite : Kite) (today : date)
    (symbol expiry_str : option string) : response ChainResponse :=
  match symbol with
  | None | Some EmptyString =>
      JsonError 400 (Message "symbol parameter required")
  | Some symbol =>
      match try_option_chain kite today symbol expiry_str with
      | Ok resp => resp
      | Raise e => JsonError 500 (StrOf e)
      end
  end.

(** What the chain holds after the options in [done] went through the
    loop. *)
Record chain_inv (q : gmap string Quote) (done : list Instrument)
    (chain : gmap Z Row) : Prop := {
  inv_key : ∀ k r, chain !! k = Some r → row_strike r = k;
  inv_dom : ∀ k, is_Some (chain !! k) ↔ ∃ o, o ∈ done ∧ strike_of o = k;
  inv_empty : ∀ k r key, chain !! k = Some r → key ∈ ["CE"; "PE"] →
    (leg_at key r = None ↔
     ∀ o, o ∈ done → strike_of o = k → type_of o ≠ key);
  inv_leg : ∀ k r key leg, chain !! k = Some r → key ∈ ["CE"; "PE"] →
    leg_at key r = Some leg →
    ∃ o, o ∈ done ∧ strike_of o = k ∧ type_of o = key ∧
         make_leg q o = Ok leg;
  inv_other : ∀ k r, chain !! k = Some r →
    Forall (λ o, type_of o ∈ ["CE"; "PE"]) done → other r = []
}.

End OptionChain.

(** ** Live ticks ([subscribe_live], [on_ticks], [get_live_ticks],
       [unsubscribe_live]) *)

Module Live.

Inductive Mode := MODE_LTP | MODE_QUOTE | MODE_FULL.

(** What a [KiteTicker] built by [subscribe_live] carries in its callbacks:
    the tokens and the mode that [on_connect] subscribes. *)
Record Ticker := { t_tokens : list Z; t_mode : Mode }.

Global Instance Mode_eq_dec : EqDecision Mode.
Proof. solve_decision. Defined.
Global Instance Ticker_eq_dec : EqDecision Ticker.
Proof. solve_decision. Defined.

Record OHLC := { o_open : Z; o_high : Z; o_low : Z; o_close : Z }.

(** A tick as the stream delivers it. *)
Record Tick := {
  tick_instrument_token : option Z;
  tick_last_price : option Z;
  tick_volume_traded : option Z;
  tick_oi : option Z;
  tick_ohlc : option OHLC;
  tick_change : option Z
}.

(** An entry of the buffer. *)
Record LiveTick := {
  lt_instrument_token : option Z;
  lt_last_price : option Z;
  lt_volume : option Z;
  lt_oi : option Z;
  lt_ohlc : option OHLC;
  lt_change : option Z;
  lt_timestamp : string
}.

(** The module globals [kws] and [live_ticks].  [streams] is not a variable
    of the program: it lists the connections the handlers have started and
    not closed with success, the ones that can still deliver ticks. *)
Record State := {
  kws : option Ticker;
  live_ticks : gmap (option Z) LiveTick;
  streams : list Ticker
}.

(** [try: kws.close() except Exception: pass].  [close] is the outcome of
    the call; either way the handler goes on. *)
Definition close_swallowed (close : result ()) (k : Ticker)
    (open : list Ticker) : list Ticker :=
  match close with
  | Ok _ => filter (λ t, t ≠ k) open
  | Raise _ => open
  end.

(** [on_ticks]: one upsert per tick, every field overwritten. [now] is
    [datetime.now().isoformat()]. *)
Definition upsert (now : string) (buf : gmap (option Z) LiveTick)
    (tick : Tick) : gmap (option Z) LiveTick :=
  let token := tick_instrument_token tick in
  <[token := {| lt_instrument_token := token;
                lt_last_price := tick_last_price tick;
                lt_volume := tick_volume_traded tick;
                lt_oi := tick_oi tick;
                lt_ohlc := tick_ohlc tick;
                lt_change := tick_change tick;
                lt_timestamp := now |}]> buf.

Definition on_ticks (now : string) (ticks : list Tick) (s : State) : State :=
  {| kws := kws s;
     live_ticks := foldl (upsert now) (live_ticks s) ticks;
     streams := streams s |}.

(** The JSON body of the subscribe request. *)
Record SubscribeBody := {
  b_tokens : option (list Z);
  b_mode : option string
}.

Record Subscribed := {
  sub_status : string;
  sub_tokens : list Z;
  sub_mode : string
}.

(** What the world does during one [subscribe_live]: the outcome of closing
    the old connection, of [KiteTicker(...)] and of starting the thread. *)
Record SubscribeEnv := {
  env_close : result ();
  env_new_ticker : result ();
  env_thread_start : result ()
}.

(** [mode_map.get(mode_str, KiteTicker.MODE_FULL)] *)
Definition mode_of (mode_str : string) : Mode :=
  if decide (mode_str = "QUOTE") then MODE_QUOTE
  else if decide (mode_str = "LTP") then MODE_LTP
  else MODE_FULL.

Definition subscribe_live (body : option SubscribeBody) (env : SubscribeEnv)
    (s : State) : response Subscribed * State :=
  let tokens := default [] (body ≫= b_tokens) in
  let mode_str := upper (default "full" (body ≫= b_mode)) in
  if decide (tokens = []) then
    (JsonError 400 (Message "tokens array required"), s)
  else
    let mode := mode_of mode_str in
    let open :=
      match kws s with
      | Some k => close_swallowed (env_close env) k (streams s)
      | None => streams s
      end in
    match env_new_ticker env with
    | Raise e =>
        (JsonError 500 (StrOf e),
         {| kws := kws s; live_ticks := live_ticks s; streams := open |})
    | Ok _ =>
        let k := {| t_tokens := tokens; t_mode := mode |} in
        match env_thread_start env with
        | Raise e =>
            (JsonError 500 (StrOf e),
             {| kws := Some k; live_ticks := live_ticks s; streams := open |})
        | Ok _ =>
            (Json {| sub_status := "subscribed"; sub_tokens := tokens;
                     sub_mode := mode_str |},
             {| kws := Some k; live_ticks := live_ticks s;
                streams := k :: open |})
        end
    end.

(** [get_live_ticks].  The conversion of the [tokens] parameter is outside
    any [try]: a [ValueError] of [int] leaves the handler. *)
Definition token_list (tokens : string) : result (list Z) :=
  for_each (λ acc t, z ← py_int (strip t); Ok (acc ++ [z]))
           (filter (λ t, strip t ≠ EmptyString) (split_comma tokens)) [].

Definition get_live_ticks (tokens : string) (s : State)
  : result (gmap (option Z) LiveTick) :=
  match tokens with
  | EmptyString => Ok (live_ticks s)
  | _ =>
      match token_list tokens with
      | Ok l =>
          Ok (filter (λ kv : option Z * LiveTick, kv.1 ∈ (Some <$> l))
                     (live_ticks s))
      | Raise e => Raise e
      end
  end.

Definition unsubscribe_live (close : result ()) (s : State)
  : response string * State :=
  let open :=
    match kws s with
    | Some k => close_swallowed close k (streams s)
    | None => streams s
    end in
  (Json "unsubscribed", {| kws := None; live_ticks := ∅; streams := open |}).

End Live.

(** ** Scanner: nearest future per symbol ([scanner_fetch]) *)

Module Scanner.

(** [[s.strip().upper() for s in symbols_str.split(",")]], or the sorted
    set of the non-empty names when [symbols_str] is empty. *)
Definition target_symbols (symbols_str : string)
    (nfo_instruments : list Instrument) : list string :=
  match symbols_str with
  | EmptyString =>
      merge_sort String.le
        (remove_dups (filter (λ n, n ≠ EmptyString)
                             (omap name nfo_instruments)))
  | _ => (λ s, upper (strip s)) <$> split_comma symbols_str
  end.

Definition is_future_of (targets : list string) (i : Instrument) : Prop :=
  instrument_type i = Some "FUT" ∧ upper (default "" (name i)) ∈ targets.

Global Instance is_future_of_dec t i : Decision (is_future_of t i).
Proof. unfold is_future_of. apply _. Defined.

(** [exp < other]: strictly earlier. *)
Definition date_lt (a b : date) : Prop := ¬ date_le b a.

(** The body of [for f in futures_instruments].  [f["name"]] and
    [futures_by_symbol[sym]["expiry"]] are subscripts: an absent key
    raises. *)
Definition select_step (today : date) (fbs : gmap string Instrument)
    (f : Instrument) : result (gmap string Instrument) :=
  match name f with
  | None => Raise (KeyError "name")
  | Some n =>
      let sym := upper n in
      match expiry f with
      | Some exp =>
          if decide (date_le today exp) then
            match fbs !! sym with
            | None => Ok (<[sym := f]> fbs)
            | Some g =>
                match expiry g with
                | None => Raise (KeyError "expiry")
                | Some gexp =>
                    if decide (date_lt exp gexp) then Ok (<[sym := f]> fbs)
                    else Ok fbs
                end
            end
          else Ok fbs
      | None => Ok fbs
      end
  end.

Definition futures_by_symbol (today : date) (targets : list string)
    (nfo_instruments : list Instrument) : result (gmap string Instrument) :=
  for_each (select_step today)
           (filter (is_future_of targets) nfo_instruments) ∅.

(** The expiry of the future the scanner holds for [sym], if it holds
    one. *)
Definition selected_expiry (today : date) (targets : list string)
    (nfo_instruments : list Instrument) (sym : string)
  : result (option date) :=
  fbs ← futures_by_symbol today targets nfo_instruments;
  Ok (fbs !! sym ≫= expiry).

(** The futures of one symbol. *)
Definition futures_of (sym : string) (nfo_instruments : list Instrument)
  : list Instrument :=
  filter (λ i, instrument_type i = Some "FUT" ∧
               upper (default "" (name i)) = sym) nfo_instruments.

(** As the specification words the selection: the expiry-selection step of
    the option-chain builder, applied to the futures of the symbol. *)
Definition spec_nearest_future_expiry (today : date)
    (nfo_instruments : list Instrument) (sym : string) : option date :=
  OptionChain.nearest_expiry today (futures_of sym nfo_instruments).

(** What [futures_by_symbol] holds after the futures in [done]: for each
    symbol the first of its futures with the least expiry on or after
    [today], and nothing if it has no such future. *)
Definition nearest_inv (today : date) (done : list Instrument)
    (fbs : gmap string Instrument) : Prop :=
  ∀ sym,
    match fbs !! sym with
    | Some f =>
        f ∈ done ∧ upper <$> name f = Some sym ∧
        ∃ e, expiry f = Some e ∧ date_le today e ∧
             ∀ g ge, g ∈ done → upper <$> name g = Some sym →
                     expiry g = Some ge → date_le today ge → date_le e ge
    | None =>
        ∀ g ge, g ∈ done → upper <$> name g = Some sym →
                expiry g = Some ge → ¬ date_le today ge
    end.

End Scanner.

(** ** Deliveries of ticks *)

Module Deliveries.
Import Live.




End Deliveries.

(** ** [date.isoformat()] *)

Definition digit_char (n : Z) : ascii :=
  ascii_of_nat (48 + Z.to_nat (n mod 10)).

(** [%02d] and [%04d] of a number that fits. *)
Definition pad2 (n : Z) : string :=
  String (digit_char (n / 10)) (String (digit_char n) EmptyString).

Definition pad4 (n : Z) : string :=
  String (digit_char (n / 1000))
    (String (digit_char (n / 100))
       (String (digit_char (n / 10)) (String (digit_char n) EmptyString))).

(** ["%04d-%02d-%02d" % (year, month, day)] *)
Definition isoformat (d : date) : string :=
  pad4 (year d) +:+ "-" +:+ pad2 (month d) +:+ "-" +:+ pad2 (day d).

(** The dates [datetime.date] can hold. *)
Definition valid_date (d : date) : Prop :=
  1 ≤ year d ≤ 9999 ∧ 1 ≤ month d ≤ 12 ∧
  1 ≤ day d ≤ days_in_month (year d) (month d).

(** ** Instruments grouped by underlying ([get_fno_instruments]) *)

Module Catalog.

(** An entry of a group: the projection of a catalog row. *)
Record FnoEntry := {
  f_instrument_token : Z;
  f_tradingsymbol : string;
  f_expiry : option string;
  f_strike : Z;
  f_lot_size : Z;
  f_instrument_type : string
}.

Definition fno_entry (inst : Instrument) : FnoEntry :=
  {| f_instrument_token := instrument_token inst;
     f_tradingsymbol := tradingsymbol inst;
     f_expiry := isoformat <$> expiry inst;
     f_strike := default 0 (strike inst);
     f_lot_size := default 0 (lot_size inst);
     f_instrument_type := default "" (instrument_type inst) |}.

(** [{"futures": [...], "options": [...]}] *)
Record Group := {
  g_futures : list FnoEntry;
  g_options : list FnoEntry
}.

Definition add_future (e : FnoEntry) (g : Group) : Group :=
  {| g_futures := g_futures g ++ [e]; g_options := g_options g |}.

Definition add_option (e : FnoEntry) (g : Group) : Group :=
  {| g_futures := g_futures g; g_options := g_options g ++ [e] |}.

(** The body of [for inst in instruments]. *)
Definition group_step (grouped : gmap string Group) (inst : Instrument)
  : gmap string Group :=
  let symbol := default "" (name inst) in
  if decide (symbol = EmptyString) then grouped
  else
    let grouped :=
      match grouped !! symbol with
      | None => <[symbol := {| g_futures := []; g_options := [] |}]> grouped
      | Some _ => grouped
      end in
    let entry := fno_entry inst in
    if decide (instrument_type inst = Some "FUT") then
      alter (add_future entry) symbol grouped
    else if decide (instrument_type inst ∈ [Some "CE"; Some "PE"]) then
      alter (add_option entry) symbol grouped
    else grouped.

Definition get_fno_instruments (kite : Kite) : response (gmap string Group) :=
  match instruments kite "NFO" with
  | Ok instruments => Json (foldl group_step ∅ instruments)
  | Raise e => JsonError 500 (StrOf e)
  end.

End Catalog.

(** ** The whole of [scanner_fetch] *)

Module ScannerFetch.
Import Scanner.

(** A dictionary in insertion order: [t[k] = v] replaces the value of a key
    in place and appends a new key; [list(t.values())] lists the values in
    that order. *)
Fixpoint assoc_get {V} (k : string) (t : list (string * V)) : option V :=
  match t with
  | [] => None
  | (k', v') :: t' => if decide (k' = k) then Some v' else assoc_get k t'
  end.

Fixpoint assoc_set {V} (k : string) (v : V) (t : list (string * V))
  : list (string * V) :=
  match t with
  | [] => [(k, v)]
  | (k', v') :: t' =>
      if decide (k' = k) then (k, v) :: t' else (k', v') :: assoc_set k v t'
  end.

(** The body of [for f in futures_instruments] on the ordered
    dictionary. *)
Definition select_step_ordered (today : date)
    (fbs : list (string * Instrument)) (f : Instrument)
  : result (list (string * Instrument)) :=
  match name f with
  | None => Raise (KeyError "name")
  | Some n =>
      let sym := upper n in
      match expiry f with
      | Some exp =>
          if decide (date_le today exp) then
            match assoc_get sym fbs with
            | None => Ok (assoc_set sym f fbs)
            | Some g =>
                match expiry g with
                | None => Raise (KeyError "expiry")
                | Some gexp =>
                    if decide (date_lt exp gexp) then Ok (assoc_set sym f fbs)
                    else Ok fbs
                end
            end
          else Ok fbs
      | None => Ok fbs
      end
  end.

(** A quote as the scanner reads it. *)
Record QuoteOHLC := {
  ohlc_open : option Z;
  ohlc_high : option Z;
  ohlc_low : option Z;
  ohlc_close : option Z
}.

Record FutQuote := {
  fq_last_price : option Z;
  fq_ohlc : option QuoteOHLC;
  fq_volume : option Z;
  fq_oi : option Z;
  fq_oi_day_high : option Z;
  fq_oi_day_low : option Z;
  fq_net_change : option Z
}.

(** The two broker operations of [scanner_fetch]. *)
Record ScanKite := {
  s_instruments : string → result (list Instrument);
  s_quote : list string → result (gmap string FutQuote)
}.

Record FutRow := {
  fr_symbol : string;
  fr_tradingsymbol : string;
  fr_instrument_token : Z;
  fr_expiry : option string;
  fr_last_price : Z;
  fr_close : Z;
  fr_open : Z;
  fr_high : Z;
  fr_low : Z;
  fr_volume : Z;
  fr_oi : Z;
  fr_oi_day_high : Z;
  fr_oi_day_low : Z;
  fr_net_change : Z;
  fr_lot_size : Z
}.

(** The dictionary appended for [f]; [q = None] is the empty dictionary of
    [quotes.get(key, {})]. *)
Definition fut_row (quotes : gmap string FutQuote) (f : Instrument)
  : result FutRow :=
  let q := quotes !! ("NFO:" +:+ tradingsymbol f) in
  match name f with
  | None => Raise (KeyError "name")
  | Some n =>
      Ok {| fr_symbol := upper n;
            fr_tradingsymbol := tradingsymbol f;
            fr_instrument_token := instrument_token f;
            fr_expiry := isoformat <$> expiry f;
            fr_last_price := default 0 (q ≫= fq_last_price);
            fr_close := default 0 ((q ≫= fq_ohlc) ≫= ohlc_close);
            fr_open := default 0 ((q ≫= fq_ohlc) ≫= ohlc_open);
            fr_high := default 0 ((q ≫= fq_ohlc) ≫= ohlc_high);
            fr_low := default 0 ((q ≫= fq_ohlc) ≫= ohlc_low);
            fr_volume := default 0 (q ≫= fq_volume);
            fr_oi := default 0 (q ≫= fq_oi);
            fr_oi_day_high := default 0 (q ≫= fq_oi_day_high);
            fr_oi_day_low := default 0 (q ≫= fq_oi_day_low);
            fr_net_change := default 0 (q ≫= fq_net_change);
            fr_lot_size := default 0 (lot_size f) |}
  end.

(** [for f in batch: futures_data.append(...)] inside the [try]: an
    exception ends the loop and keeps what was appended. *)
Fixpoint batch_rows (quotes : gmap string FutQuote) (batch : list Instrument)
    (futures_data : list FutRow) : list FutRow :=
  match batch with
  | [] => futures_data
  | f :: rest =>
      match fut_row quotes f with
      | Ok row => batch_rows quotes rest (futures_data ++ [row])
      | Raise _ => futures_data
      end
  end.

(** The body of [for i in range(0, len(fut_list), batch_size)]. *)
Definition scan_batch (kite : ScanKite) (fut_list : list Instrument)
    (futures_data : list FutRow) (i : nat) : list FutRow :=
  let batch := take OptionChain.batch_size (drop i fut_list) in
  let ids := (λ f, "NFO:" +:+ tradingsymbol f) <$> batch in
  match s_quote kite ids with
  | Ok quotes => batch_rows quotes batch futures_data
  | Raise be => futures_data
  end.

Record ScanResponse := {
  sr_futures : list FutRow;
  sr_symbols : list string;
  sr_count : nat
}.

(** The body of the [try] block. *)
Definition try_scanner_fetch (kite : ScanKite) (today : date)
    (symbols_str : string) : result (response ScanResponse) :=
  nfo_instruments ← s_instruments kite "NFO";
  let targets := target_symbols symbols_str nfo_instruments in
  fbs ← for_each (select_step_ordered today)
                 (filter (is_future_of targets) nfo_instruments) [];
  let fut_list := fbs.*2 in
  let futures_data :=
    foldl (scan_batch kite fut_list) []
          (OptionChain.py_range 0 (length fut_list)
                                OptionChain.batch_size) in
  Ok (Json {| sr_futures := futures_data;
              sr_symbols := targets;
              sr_count := length futures_data |}).

Definition scanner_fetch (kite : ScanKite) (today : date)
    (symbols_str : string) : response ScanResponse :=
  match try_scanner_fetch kite today symbols_str with
  | Ok resp => resp
  | Raise e => JsonError 500 (StrOf e)
  end.

End ScannerFetch.

(** ** The rows of the scanner, batch by batch *)

Module ScannerRows.
Import ScannerFetch.

(** The row of a future, when it can be made. *)
Definition row_of (quotes : gmap string FutQuote) (f : Instrument)
  : option FutRow :=
  match fut_row quotes f with
  | Ok row => Some row
  | Raise _ => None
  end.

(** The consecutive blocks of [n] elements of a list. *)
Definition blocks {A} (n : nat) (l : list A) : list (list A) :=
  (λ j, take n (drop (j * n) l))
    <$> seq 0 (OptionChain.ceil_div (length l) n).

(** What one batch adds to [futures_data]: a row per future when the call
    answers, nothing when it raises. *)
Definition block_rows (kite : ScanKite) (batch : list Instrument)
  : list FutRow :=
  match s_quote kite ((λ f, "NFO:" +:+ tradingsymbol f) <$> batch) with
  | Ok quotes => omap (row_of quotes) batch
  | Raise _ => []
  end.

End ScannerRows.

(** ** Handlers of a list of symbols ([get_ohlc], [get_ltp]) *)

Module Symbols.

(** [[s.strip() for s in symbols_str.split(",") if s.strip()]], the list
    [get_quote], [get_ohlc] and [get_ltp] hand to the broker. *)
Definition parse_symbols (symbols_str : string) : list string :=
  filter (λ x, x ≠ EmptyString) (strip <$> split_comma symbols_str).

(** [get_ohlc] and [get_ltp]: the answer of the broker operation [op] is
    passed through. *)
Definition symbols_handler {A} (op : list string → result A)
    (symbols_str : string) : response A :=
  match symbols_str with
  | EmptyString => JsonError 400 (Message "symbols parameter required")
  | _ =>
      match op (parse_symbols symbols_str) with
      | Ok data => Json data
      | Raise e => JsonError 500 (StrOf e)
      end
  end.

Definition get_ltp (kite : Kite) (symbols_str : string)
  : response (list (string * LtpEntry)) :=
  symbols_handler (ltp kite) symbols_str.

End Symbols.

(** ** Sample data *)

Module Sample.
Import OptionChain.

Definition today : date := mkDate 2026 11 3.
Definition nov26 : date := mkDate 2026 11 26.
Definition dec31 : date := mkDate 2026 12 31.
Definition oct29 : date := mkDate 2026 10 29.

Definition contract (tok : Z) (ts nm ty : string) (e : option date) (k : Z)
  : Instrument :=
  {| instrument_token := tok; tradingsymbol := ts; name := Some nm;
     instrument_type := Some ty; expiry := e; strike := Some k;
     lot_size := Some 75 |}.

Definition ce_24000 := contract 101 "NIFTY26NOV24000CE" "NIFTY" "CE" (Some nov26) 24000.
Definition pe_24000 := contract 102 "NIFTY26NOV24000PE" "NIFTY" "PE" (Some nov26) 24000.
Definition ce_23900 := contract 103 "NIFTY26NOV23900CE" "NIFTY" "CE" (Some nov26) 23900.
Definition ce_dec := contract 104 "NIFTY26DEC24000CE" "NIFTY" "CE" (Some dec31) 24000.
Definition pe_oct := contract 105 "NIFTY26OCT24000PE" "NIFTY" "PE" (Some oct29) 24000.
Definition fut_nov := contract 201 "NIFTY26NOVFUT" "NIFTY" "FUT" (Some nov26) 0.
Definition fut_oct := contract 202 "NIFTY26OCTFUT" "NIFTY" "FUT" (Some oct29) 0.
Definition ce_open := contract 106 "NIFTYOPENCE" "NIFTY" "CE" None 24000.

Definition catalog : list Instrument :=
  [ce_24000; pe_24000; ce_23900; ce_dec; pe_oct; fut_nov; fut_oct].

Definition level (p : Z) : Level := {| price := Some p |}.

Definition quote_table : list (string * Quote) :=
  [("NFO:NIFTY26NOV24000CE",
    {| q_last_price := Some 15050; q_oi := Some 120000;
       q_volume := Some 5300;
       q_depth := Some {| buy := Some [level 15000; level 14950];
                          sell := Some [level 15100] |} |});
   ("NFO:NIFTY26NOV24000PE",
    {| q_last_price := Some 9800; q_oi := Some 88000;
       q_volume := Some 4100; q_depth := None |})].

(** A provider that answers with the quotes it has for the identifiers of
    the call, and raises on the identifiers in [bad]. *)
Definition table_quote (bad : list string) (ids : list string)
  : result (gmap string Quote) :=
  if decide (Exists (λ i, i ∈ bad) ids) then
    Raise (KiteException "invalid instrument")
  else Ok (list_to_map (filter (λ kv, kv.1 ∈ ids) quote_table)).

Definition kite_with (cat : list Instrument) (bad : list string) : Kite :=
  {| instruments := λ _, Ok cat;
     quote := table_quote bad;
     ltp := λ _, Ok [("NSE:NIFTY 50", {| ltp_last_price := Some 2398000 |})] |}.

Definition kite : Kite := kite_with catalog [].

(** 401 calls of one expiry, strikes 50 apart: three batches. *)
Definition wide_catalog : list Instrument :=
  (λ i : nat, contract (1000 + Z.of_nat i)
                ("NIFTY26NOV" +:+ pretty (20000 + 50 * Z.of_nat i) +:+ "CE")
                "NIFTY" "CE" (Some nov26) (20000 + 50 * Z.of_nat i))
    <$> seq 0 401.

(** A provider that has a quote for every identifier it is asked for, and
    raises on a call that names an identifier in [bad]. *)
Definition flat_quote : Quote :=
  {| q_last_price := Some 100; q_oi := Some 10; q_volume := Some 1;
     q_depth := None |}.

Definition echo_quote (bad : list string) (ids : list string)
  : result (gmap string Quote) :=
  if decide (Exists (λ i, i ∈ bad) ids) then
    Raise (KiteException "invalid instrument")
  else Ok (list_to_map ((λ i, (i, flat_quote)) <$> ids)).

Definition echo_kite (cat : list Instrument) (bad : list string) : Kite :=
  {| instruments := λ _, Ok cat;
     quote := echo_quote bad;
     ltp := λ _, Raise (KiteException "no spot") |}.

(** A running subscription to tokens 100 and 200 with one entry for token
    100, a tick for token 200, and a request that subscribes token 200
    only. *)
Definition tick_200 (p : Z) : Live.Tick :=
  {| Live.tick_instrument_token := Some 200;
     Live.tick_last_price := Some p;
     Live.tick_volume_traded := Some 10;
     Live.tick_oi := None; Live.tick_ohlc := None;
     Live.tick_change := None |}.

Definition streaming : Live.State :=
  let k := {| Live.t_tokens := [100; 200]; Live.t_mode := Live.MODE_FULL |} in
  {| Live.kws := Some k;
     Live.live_ticks :=
       {[ Some 100 :=
            {| Live.lt_instrument_token := Some 100;
               Live.lt_last_price := Some 2500;
               Live.lt_volume := Some 40;
               Live.lt_oi := None; Live.lt_ohlc := None;
               Live.lt_change := None;
               Live.lt_timestamp := "2026-11-03T09:15:00" |} ]};
     Live.streams := [k] |}.

(** The entry of token 100 in [streaming]. *)
Definition entry_100 : Live.LiveTick :=
  {| Live.lt_instrument_token := Some 100;
     Live.lt_last_price := Some 2500;
     Live.lt_volume := Some 40;
     Live.lt_oi := None; Live.lt_ohlc := None;
     Live.lt_change := None;
     Live.lt_timestamp := "2026-11-03T09:15:00" |}.

Definition resubscribe : Live.SubscribeBody :=
  {| Live.b_tokens := Some [200]; Live.b_mode := Some "ltp" |}.

Definition calm : Live.SubscribeEnv :=
  {| Live.env_close := Ok (); Live.env_new_ticker := Ok ();
     Live.env_thread_start := Ok () |}.

(** The sample broker with a spot lookup that raises. *)
Definition kite_without_spot : Kite :=
  {| instruments := instruments kite;
     quote := quote kite;
     ltp := λ _, Raise (KiteException "no spot") |}.

(** A scanner broker over the sample catalog whose quote call raises on
    the identifiers in [bad] and has no quote otherwise. *)
Definition scan_kite (bad : list string) : ScannerFetch.ScanKite :=
  {| ScannerFetch.s_instruments := λ _, Ok catalog;
     ScannerFetch.s_quote := λ ids,
       if decide (Exists (λ i, i ∈ bad) ids) then
         Raise (KiteException "invalid instrument")
       else Ok ∅ |}.

(** The row of the November future without a quote. *)
Definition nov_future_row : ScannerFetch.FutRow :=
  {| ScannerFetch.fr_symbol := "NIFTY";
     ScannerFetch.fr_tradingsymbol := "NIFTY26NOVFUT";
     ScannerFetch.fr_instrument_token := 201;
     ScannerFetch.fr_expiry := Some "2026-11-26";
     ScannerFetch.fr_last_price := 0;
     ScannerFetch.fr_close := 0; ScannerFetch.fr_open := 0;
     ScannerFetch.fr_high := 0; ScannerFetch.fr_low := 0;
     ScannerFetch.fr_volume := 0; ScannerFetch.fr_oi := 0;
     ScannerFetch.fr_oi_day_high := 0; ScannerFetch.fr_oi_day_low := 0;
     ScannerFetch.fr_net_change := 0;
     ScannerFetch.fr_lot_size := 75 |}.

Definition scan_body : ScannerFetch.ScanResponse :=
  {| ScannerFetch.sr_futures := [nov_future_row];
     ScannerFetch.sr_symbols := ["NIFTY"];
     ScannerFetch.sr_count := 1 |}.

(** The chain of the nearest expiry of the sample catalog: a strike with
    both legs, one quoted with depth and one quoted without, and a strike
    with an unquoted call only. *)
Definition nifty_body : ChainResponse :=
  {| r_symbol := "NIFTY";
     r_spot_price := 2398000;
     r_expiry := Some nov26;
     r_chain :=
       [ {| row_strike := 23900;
            CE := Some {| leg_instrument_token := 103;
                          leg_tradingsymbol := "NIFTY26NOV23900CE";
                          leg_last_price := 0; leg_oi := 0; leg_volume := 0;
                          leg_bid := 0; leg_ask := 0; leg_lot_size := 75 |};
            PE := None;
            other := [] |};
         {| row_strike := 24000;
            CE := Some {| leg_instrument_token := 101;
                          leg_tradingsymbol := "NIFTY26NOV24000CE";
                          leg_last_price := 15050; leg_oi := 120000;
                          leg_volume := 5300;
                          leg_bid := 15000; leg_ask := 15100;
                          leg_lot_size := 75 |};
            PE := Some {| leg_instrument_token := 102;
                          leg_tradingsymbol := "NIFTY26NOV24000PE";
                          leg_last_price := 9800; leg_oi := 88000;
                          leg_volume := 4100;
                          leg_bid := 0; leg_ask := 0; leg_lot_size := 75 |};
            other := [] |} ] |}.

(** The chain of the sample catalog for the expiry of 31 December. *)
Definition december_body : ChainResponse :=
  {| r_symbol := "NIFTY";
     r_spot_price := 2398000;
     r_expiry := Some dec31;
     r_chain :=
       [ {| row_strike := 24000;
            CE := Some {| leg_instrument_token := 104;
                          leg_tradingsymbol := "NIFTY26DEC24000CE";
                          leg_last_price := 0; leg_oi := 0; leg_volume := 0;
                          leg_bid := 0; leg_ask := 0; leg_lot_size := 75 |};
            PE := None;
            other := [] |} ] |}.

End Sample.

(** * Properties *)

(** Decide a closed decidable proposition by evaluation. *)
Ltac by_compute :=
  lazymatch goal with
  | |- ?P => refine (@bool_decide_unpack P _ _); vm_compute; exact I
  end.

(** ** The order on dates *)

Global Instance date_le_refl : Reflexive date_le.
Proof. intros [y m d]. unfold date_le. simpl. lia. Qed.

Global Instance date_le_trans : Transitive date_le.
Proof. intros [] [] []. unfold date_le. simpl. lia. Qed.

Global Instance date_le_total : Total date_le.
Proof. intros [] []. unfold date_le. simpl. lia. Qed.

Global Instance date_le_antisym : AntiSymm (=) date_le.
Proof.
  intros [y m d] [y' m' d']. unfold date_le. simpl. intros H1 H2.
  assert (y = y' ∧ m = m' ∧ d = d') as (-> & -> & ->) by lia. done.
Qed.

(** ** Sorted lists *)

Section sorted_lists.
Context {A : Type} (R : relation A).

Lemma StronglySorted_filter_list (P : A → Prop) `{∀ x, Decision (P x)} l :
  StronglySorted R l → StronglySorted R (filter P l).
Proof.
  induction 1 as [|x l Hl IH Hx]; [constructor|].
  rewrite filter_cons. case_decide; [|done].
  constructor; [done|].
  apply Forall_forall. intros y [_ Hy]%list_elem_of_filter.
  by eapply Forall_forall in Hx.
Qed.

Lemma StronglySorted_head_least x l y :
  Reflexive R → StronglySorted R (x :: l) → y ∈ x :: l → R x y.
Proof.
  intros HR Hs Hy. apply StronglySorted_cons in Hs as [Hx _].
  apply elem_of_cons in Hy as [->|Hy]; [done|].
  by eapply Forall_forall in Hx.
Qed.

Lemma StronglySorted_last_greatest l m y :
  Reflexive R → StronglySorted R l → last l = Some m → y ∈ l → R y m.
Proof.
  intros HR Hs Hm Hy.
  apply last_Some in Hm as [l' ->].
  apply StronglySorted_app in Hs as (Hlt & _ & _).
  apply elem_of_app in Hy as [Hy|Hy].
  - apply Hlt; [done|]. by apply list_elem_of_singleton.
  - apply list_elem_of_singleton in Hy as ->. done.
Qed.
End sorted_lists.

Lemma StronglySorted_le_NoDup_lt (l : list Z) :
  StronglySorted Z.le l → NoDup l → StronglySorted Z.lt l.
Proof.
  induction 1 as [|x l Hl IH Hx]; intros Hnd; [constructor|].
  apply NoDup_cons in Hnd as [Hnotin Hnd].
  constructor; [by apply IH|].
  apply Forall_forall. intros y Hy.
  assert (x ≤ y) by (by eapply Forall_forall in Hx).
  assert (x ≠ y) by (by intros ->). lia.
Qed.

(** ** Expiry selection *)

Section expiry_selection.
Import OptionChain.
Implicit Types (options : list Instrument) (today e : date).

Lemma elem_of_expiries_of options e :
  e ∈ expiries_of options ↔ ∃ o, o ∈ options ∧ expiry o = Some e.
Proof.
  unfold expiries_of.
  rewrite merge_sort_Permutation, elem_of_remove_dups, list_elem_of_omap.
  done.
Qed.

Lemma expiries_of_sorted options :
  StronglySorted date_le (expiries_of options).
Proof. apply StronglySorted_merge_sort; apply _. Qed.

Lemma expiries_of_NoDup options : NoDup (expiries_of options).
Proof.
  unfold expiries_of. rewrite merge_sort_Permutation.
  apply NoDup_remove_dups.
Qed.

(** With an expiry on or after [today], the choice is the least such. *)
Lemma nearest_expiry_upcoming today options e0 :
  e0 ∈ expiries_of options → date_le today e0 →
  ∃ n, nearest_expiry today options = Some n ∧
       n ∈ expiries_of options ∧ date_le today n ∧
       ∀ e, e ∈ expiries_of options → date_le today e → date_le n e.
Proof.
  intros Hin Hle. unfold nearest_expiry.
  pose proof (StronglySorted_filter_list date_le (date_le today) _
                (expiries_of_sorted options)) as Hs.
  assert (e0 ∈ filter (date_le today) (expiries_of options)) as Hf
    by (by apply list_elem_of_filter).
  destruct (filter (date_le today) (expiries_of options)) as [|n t] eqn:E.
  { by apply elem_of_nil in Hf. }
  assert (n ∈ filter (date_le today) (expiries_of options)) as Hn
    by (rewrite E; apply elem_of_cons; by left).
  apply list_elem_of_filter in Hn as [Hn1 Hn2].
  exists n. split_and!; [done..|].
  intros e He1 He2.
  eapply StronglySorted_head_least; [apply _|exact Hs|].
  rewrite <- E. by apply list_elem_of_filter.
Qed.

(** With expiries but none on or after [today], it is the greatest. *)
Lemma nearest_expiry_past today options e0 :
  e0 ∈ expiries_of options →
  (∀ e, e ∈ expiries_of options → ¬ date_le today e) →
  ∃ m, nearest_expiry today options = Some m ∧
       m ∈ expiries_of options ∧
       ∀ e, e ∈ expiries_of options → date_le e m.
Proof.
  intros Hin Hpast. unfold nearest_expiry.
  destruct (filter (date_le today) (expiries_of options)) as [|n t] eqn:E.
  - destruct (last (expiries_of options)) as [m|] eqn:Hl.
    + exists m. split_and!; [done| |].
      * apply last_Some in Hl as [l' Hl]. rewrite Hl.
        apply elem_of_app. right. by apply list_elem_of_singleton.
      * intros e He.
        eapply StronglySorted_last_greatest;
          [apply _|apply expiries_of_sorted|done..].
    + apply last_None in Hl. rewrite Hl in Hin. by apply elem_of_nil in Hin.
  - assert (n ∈ filter (date_le today) (expiries_of options)) as Hn
      by (rewrite E; apply elem_of_cons; by left).
    apply list_elem_of_filter in Hn as [Hn1 Hn2]. by apply Hpast in Hn2.
Qed.

(** Without any expiry there is nothing to choose. *)
Lemma nearest_expiry_None today options :
  nearest_expiry today options = None ↔
  ∀ o, o ∈ options → expiry o = None.
Proof.
  split.
  - intros Hn o Ho. destruct (expiry o) as [e|] eqn:He; [|done].
    assert (e ∈ expiries_of options) as Hin
      by (apply elem_of_expiries_of; eauto).
    destruct (decide (date_le today e)) as [Hle|Hle].
    + destruct (nearest_expiry_upcoming _ _ _ Hin Hle) as (n & Hs & _).
      congruence.
    + unfold nearest_expiry in Hn.
      destruct (filter _ _); [|done].
      apply last_None in Hn. rewrite Hn in Hin.
      by apply elem_of_nil in Hin.
  - intros Hall. unfold nearest_expiry.
    assert (expiries_of options = []) as ->; [|done].
    destruct (expiries_of options) as [|e l] eqn:E; [done|].
    assert (e ∈ expiries_of options) as Hin
      by (rewrite E; apply elem_of_cons; by left).
    apply elem_of_expiries_of in Hin as (o & Ho & He).
    rewrite (Hall o Ho) in He. done.
Qed.
End expiry_selection.

(** ** C2: choice of the expiry when the request names none *)

Section C2.
Import OptionChain.

Lemma filter_by_expiry_empty_string today options :
  filter_by_expiry (Some EmptyString) today options =
  filter_by_expiry None today options.
Proof. reflexivity. Qed.

(** C2, as the code has it.  When the request names no expiry the builder
    returns a list [kept] of contracts.  If some contract carries an expiry
    date, [kept] is exactly the contracts (in catalog order) whose expiry
    is the chosen date [e]: the earliest date on or after [today], or, when
    every date is before [today], the latest one.  If no contract carries
    an expiry date, every contract is kept. *)
Theorem nearest_expiry_selection (today : date) (options : list Instrument) :
  ∃ kept, filter_by_expiry None today options = Ok kept ∧
    ((∃ e, (∃ o, o ∈ options ∧ expiry o = Some e) ∧
           kept = filter (λ o, expiry o = Some e) options ∧
           ((date_le today e ∧
             ∀ o e', o ∈ options → expiry o = Some e' →
                     date_le today e' → date_le e e') ∨
            ((∀ o e', o ∈ options → expiry o = Some e' →
                      ¬ date_le today e') ∧
             ∀ o e', o ∈ options → expiry o = Some e' → date_le e' e)))
     ∨ ((∀ o, o ∈ options → expiry o = None) ∧ kept = options)).
Proof.
  unfold filter_by_expiry.
  destruct (nearest_expiry today options) as [e|] eqn:Hn.
  - exists (with_expiry e options). split; [done|]. left. exists e.
    assert (∃ o, o ∈ options ∧ is_Some (expiry o)) as (o0 & Ho0 & [e0 He0]).
    { destruct (decide (Exists (λ o, is_Some (expiry o)) options)) as [Hex|Hex].
      - apply Exists_exists in Hex. done.
      - assert (nearest_expiry today options = None); [|congruence].
        apply nearest_expiry_None. intros o Ho.
        destruct (expiry o) eqn:E; [|done]. exfalso. apply Hex.
        apply Exists_exists. exists o. rewrite E. eauto. }
    assert (e0 ∈ expiries_of options) as Hin0
      by (apply elem_of_expiries_of; eauto).
    destruct (decide (Exists (date_le today) (expiries_of options)))
      as [Hup|Hup].
    + apply Exists_exists in Hup as (e1 & He1 & Hle1).
      destruct (nearest_expiry_upcoming _ _ _ He1 Hle1)
        as (n & Hsel & Hnin & Hnle & Hmin).
      assert (n = e) as -> by congruence.
      split_and!; [by apply elem_of_expiries_of|done|].
      left. split; [done|]. intros o e' Ho He' Hle'.
      apply Hmin; [|done]. apply elem_of_expiries_of. eauto.
    + assert (∀ e', e' ∈ expiries_of options → ¬ date_le today e') as Hpast.
      { intros e' He' Hle'. apply Hup, Exists_exists. eauto. }
      destruct (nearest_expiry_past _ _ _ Hin0 Hpast) as (m & Hsel & Hmin & Hmax).
      assert (m = e) as -> by congruence.
      split_and!; [by apply elem_of_expiries_of|done|].
      right. split.
      * intros o e' Ho He'. apply Hpast, elem_of_expiries_of. eauto.
      * intros o e' Ho He'. apply Hmax, elem_of_expiries_of. eauto.
  - exists options. split; [done|]. right. split; [|done].
    exact (proj1 (nearest_expiry_None _ _) Hn).
Qed.

(** An expiry that falls on [today] counts as upcoming. *)
Example expiry_of_today_is_chosen :
  nearest_expiry Sample.nov26 Sample.catalog = Some Sample.nov26.
Proof. vm_compute. reflexivity. Qed.

(** C2 as stated fails on a contract that carries no expiry date: the
    contract is kept although no expiry was selected. *)
Lemma nearest_expiry_selection_counterexample :
  let options := [Sample.ce_open] in
  filter (is_option_of "NIFTY") options = options ∧
  options ≠ [] ∧
  filter_by_expiry None Sample.today options = Ok options ∧
  ¬ ∃ e, filter_by_expiry None Sample.today options
         = Ok (filter (λ o, expiry o = Some e) options).
Proof.
  split_and!; [done..|]. intros [e He]. vm_compute in He. discriminate.
Qed.
End C2.

(** ** The chain loop *)

Section chain_loop.
Import OptionChain.

Lemma for_each_inv {S A} (body : S → A → result S)
    (I : list A → S → Prop) :
  (∀ done s x s', I done s → body s x = Ok s' → I (done ++ [x]) s') →
  ∀ l done s s', I done s → for_each body l s = Ok s' → I (done ++ l) s'.
Proof.
  intros Hstep. induction l as [|x l IH]; intros done s s' HI Hrun.
  - simpl in Hrun. injection Hrun as <-. by rewrite app_nil_r.
  - simpl in Hrun. destruct (body s x) as [s1|e] eqn:Hb; [|done].
    simpl in Hrun. rewrite (assoc_L (++) done [x] l : done ++ x :: l = _).
    eapply IH; [|done]. by eapply Hstep.
Qed.

Lemma leg_at_set_leg key ty leg r :
  key ∈ ["CE"; "PE"] →
  leg_at key (set_leg ty leg r) = if decide (key = ty) then Some leg
                                  else leg_at key r.
Proof.
  intros Hk. unfold leg_at, set_leg.
  apply elem_of_cons in Hk as [->|Hk%list_elem_of_singleton];
    [|subst key]; repeat case_decide; simpl; congruence.
Qed.

Lemma CE_is_leg_key : "CE" ∈ ["CE"; "PE"].
Proof. apply elem_of_cons. by left. Qed.

Lemma PE_is_leg_key : "PE" ∈ ["CE"; "PE"].
Proof. apply elem_of_cons. right. by apply list_elem_of_singleton. Qed.

Lemma row_strike_set_leg ty leg r :
  row_strike (set_leg ty leg r) = row_strike r.
Proof. unfold set_leg. repeat case_decide; done. Qed.

Lemma other_set_leg ty leg r :
  ty ∈ ["CE"; "PE"] → other (set_leg ty leg r) = other r.
Proof.
  intros Hk. unfold set_leg.
  apply elem_of_cons in Hk as [->|Hk%list_elem_of_singleton];
    [|subst ty]; repeat case_decide; simpl; congruence.
Qed.

(** One iteration stores the leg of [opt] in the row of its strike, a
    fresh row if the strike is new. *)
Lemma chain_step_Ok q st opt st' :
  chain_step q st opt = Ok st' →
  ∃ leg, make_leg q opt = Ok leg ∧
    st'.1 = <[strike_of opt :=
                set_leg (type_of opt) leg
                  (default (new_row (strike_of opt))
                           (st.1 !! strike_of opt))]> st.1.
Proof.
  unfold chain_step. intros H.
  destruct (make_leg q opt) as [leg|e] eqn:Hleg; [|done].
  simpl in H. injection H as <-. exists leg. split; [done|]. simpl.
  destruct (st.1 !! strike_of opt) as [r|] eqn:Hr; simpl.
  - apply map_eq. intros k. rewrite lookup_alter, lookup_insert.
    case_decide; simplify_eq; [by rewrite Hr|done].
  - apply map_eq. intros k. rewrite lookup_alter, !lookup_insert.
    repeat case_decide; simplify_eq; done.
Qed.

Lemma chain_inv_empty q : chain_inv q [] ∅.
Proof.
  split.
  - intros k r Hk. by rewrite lookup_empty in Hk.
  - intros k. rewrite lookup_empty. split; [by intros [? ?]|].
    intros (o & Ho & _). by apply elem_of_nil in Ho.
  - intros k r key Hk. by rewrite lookup_empty in Hk.
  - intros k r key leg Hk. by rewrite lookup_empty in Hk.
  - intros k r Hk. by rewrite lookup_empty in Hk.
Qed.

Lemma chain_inv_step q done st opt st' :
  chain_inv q done st.1 → chain_step q st opt = Ok st' →
  chain_inv q (done ++ [opt]) st'.1.
Proof.
  intros [Hkey Hdom Hempty Hleg Hother] Hstep.
  apply chain_step_Ok in Hstep as (leg & Hmk & ->).
  assert (∀ o, o ∈ done ++ [opt] ↔ o ∈ done ∨ o = opt) as Hin.
  { intros o. rewrite elem_of_app, list_elem_of_singleton. done. }
  assert (row_strike (default (new_row (strike_of opt))
                              (st.1 !! strike_of opt)) = strike_of opt)
    as Hr0.
  { destruct (st.1 !! strike_of opt) eqn:E; simpl; [by eapply Hkey|done]. }
  assert (∀ key, st.1 !! strike_of opt = None →
                 leg_at key (new_row (strike_of opt)) = None ∧
                 ∀ o, o ∈ done → strike_of o ≠ strike_of opt) as Hfresh.
  { intros key E. split; [unfold leg_at; by repeat case_decide|].
    intros o Ho Hk.
    assert (is_Some (st.1 !! strike_of opt)) as [? ?]; [|congruence].
    apply Hdom. eauto. }
  split.
  - intros k r.
    destruct (decide (strike_of opt = k)) as [<-|Hne].
    + rewrite lookup_insert_eq. intros [= <-].
      by rewrite row_strike_set_leg.
    + rewrite lookup_insert_ne by done. apply Hkey.
  - intros k. destruct (decide (strike_of opt = k)) as [<-|Hne].
    + rewrite lookup_insert_eq. split; [|by eauto].
      intros _. exists opt. rewrite Hin. eauto.
    + rewrite lookup_insert_ne by done. rewrite Hdom.
      split; intros (o & Ho & Hk).
      * exists o. rewrite Hin. eauto.
      * apply Hin in Ho as [Ho| ->]; [by eauto|done].
  - intros k r key. destruct (decide (strike_of opt = k)) as [<-|Hne].
    + rewrite lookup_insert_eq. intros [= <-] Hkeyin.
      rewrite leg_at_set_leg by done. case_decide as Hty.
      * split; [done|]. intros Hall. exfalso.
        eapply (Hall opt); [|done|done]. rewrite Hin. eauto.
      * destruct (st.1 !! strike_of opt) as [r1|] eqn:E; simpl.
        -- rewrite (Hempty _ r1 key E Hkeyin). split; intros Hall o Ho Hk.
           ++ apply Hin in Ho as [Ho| ->]; [by eapply Hall|congruence].
           ++ apply Hall; [|done]. rewrite Hin. eauto.
        -- destruct (Hfresh key eq_refl) as [Hnone Hnew]. split; [|done].
           intros _ o Ho Hk.
           apply Hin in Ho as [Ho| ->]; [by apply Hnew in Ho|congruence].
    + rewrite lookup_insert_ne by done. intros Hk Hkeyin.
      rewrite (Hempty k r key Hk Hkeyin).
      split; intros Hall o Ho Hko.
      * apply Hin in Ho as [Ho| ->]; [by eapply Hall|done].
      * apply Hall; [|done]. rewrite Hin. eauto.
  - intros k r key leg'. destruct (decide (strike_of opt = k)) as [<-|Hne].
    + rewrite lookup_insert_eq. intros [= <-] Hkeyin.
      rewrite leg_at_set_leg by done. case_decide as Hty.
      * intros [= <-]. exists opt. rewrite Hin. eauto.
      * destruct (st.1 !! strike_of opt) as [r1|] eqn:E; simpl.
        -- intros Hl. destruct (Hleg _ r1 key leg' E Hkeyin Hl)
             as (o & Ho & ?). exists o. rewrite Hin. eauto.
        -- destruct (Hfresh key eq_refl) as [Hnone _]. congruence.
    + rewrite lookup_insert_ne by done. intros Hk Hkeyin Hl.
      destruct (Hleg k r key leg' Hk Hkeyin Hl) as (o & Ho & ?).
      exists o. rewrite Hin. eauto.
  - intros k r. destruct (decide (strike_of opt = k)) as [<-|Hne].
    + rewrite lookup_insert_eq. intros [= <-] Hall.
      apply Forall_app in Hall as [Hd Ho].
      apply Forall_cons in Ho as [Ho _]. rewrite other_set_leg by done.
      destruct (st.1 !! strike_of opt) as [r1|] eqn:E; simpl;
        [by eapply Hother|done].
    + rewrite lookup_insert_ne by done. intros Hk Hall.
      apply Forall_app in Hall as [Hd _]. by eapply Hother.
Qed.

Lemma build_chain_inv q options st :
  build_chain q options (∅, None) = Ok st → chain_inv q options st.1.
Proof.
  intros Hrun.
  apply (for_each_inv (chain_step q) (λ done s, chain_inv q done s.1)
           (λ done s x s', chain_inv_step q done s x s')
           options [] (∅, None) st (chain_inv_empty q) Hrun).
Qed.

Lemma elem_of_sorted_chain chain r :
  r ∈ sorted_chain chain ↔ ∃ k, chain !! k = Some r.
Proof.
  unfold sorted_chain. rewrite merge_sort_Permutation, list_elem_of_fmap.
  split.
  - intros ([k r'] & -> & Hin). exists k. by apply elem_of_map_to_list.
  - intros [k Hk]. exists (k, r). split; [done|].
    by apply elem_of_map_to_list.
Qed.
End chain_loop.

(** ** The successful response of the builder *)

Section builder.
Import OptionChain.

Global Instance strike_le_trans : Transitive strike_le.
Proof. intros a b c. unfold strike_le. lia. Qed.

Global Instance strike_le_total : Total strike_le.
Proof. intros a b. unfold strike_le. lia. Qed.

Lemma filter_by_expiry_Forall (P : Instrument → Prop) expiry_str today
    options kept :
  filter_by_expiry expiry_str today options = Ok kept →
  Forall P options → Forall P kept.
Proof.
  intros Hf HP.
  assert (∀ e, Forall P (with_expiry e options)) as Hw.
  { intros e. apply Forall_forall.
    intros o [_ Ho]%list_elem_of_filter. by eapply Forall_forall in HP. }
  unfold filter_by_expiry in Hf.
  destruct expiry_str as [[|c s]|].
  - destruct (nearest_expiry today options); injection Hf as <-; auto.
  - destruct (strptime_ymd (String c s)); [|done].
    injection Hf as <-. auto.
  - destruct (nearest_expiry today options); injection Hf as <-; auto.
Qed.

Lemma select_options_inl cat sym expiry_str today options :
  select_options cat sym expiry_str today = Ok (inl options) →
  options ≠ [] ∧ Forall (is_option_of (upper sym)) options ∧
  filter_by_expiry expiry_str today (filter (is_option_of (upper sym)) cat)
  = Ok options.
Proof.
  unfold select_options. case_decide as Hne; [done|].
  destruct (filter_by_expiry _ _ _) as [kept|e] eqn:Hf; [|done]. simpl.
  case_decide as Hne'; [done|]. intros [= <-]. split_and!; [done| |done].
  eapply filter_by_expiry_Forall; [done|].
  apply Forall_forall. by intros o [? _]%list_elem_of_filter.
Qed.

(** A [200] response comes from a non-empty selection and a chain loop
    that ran to its end. *)
Lemma get_option_chain_Json kite today symbol expiry_str body :
  get_option_chain kite today symbol expiry_str = Json body →
  ∃ sym cat options chain,
    symbol = Some sym ∧
    instruments kite "NFO" = Ok cat ∧
    select_options cat sym expiry_str today = Ok (inl options) ∧
    build_chain (fetch_quotes kite options).1 options (∅, None)
    = Ok (chain, r_expiry body) ∧
    r_chain body = sorted_chain chain.
Proof.
  unfold get_option_chain. destruct symbol as [[|c s]|]; [done| |done].
  unfold try_option_chain.
  destruct (instruments kite "NFO") as [cat|e] eqn:Hcat; [|done]. simpl.
  destruct (select_options cat _ _ _) as [[options|resp]|e] eqn:Hsel;
    simpl; [| |done].
  - destruct (build_chain _ _ _) as [[chain ed]|e] eqn:Hb; [|done]. simpl.
    intros [= <-]. by exists (String c s), cat, options, chain.
  - intros ->. unfold select_options in Hsel.
    case_decide; [done|].
    destruct (filter_by_expiry _ _ _); [|done]. simpl in Hsel.
    case_decide; done.
Qed.

Lemma StronglySorted_row_strikes (rows : list Row) :
  StronglySorted strike_le rows →
  StronglySorted Z.le (row_strike <$> rows).
Proof.
  induction 1 as [|r rows Hs IH Hr]; [constructor|].
  rewrite fmap_cons. constructor; [done|].
  apply Forall_fmap. by eapply Forall_impl.
Qed.

Lemma row_strikes_are_keys (chain : gmap Z Row) :
  (∀ k r, chain !! k = Some r → row_strike r = k) →
  row_strike <$> (map_to_list chain).*2 = (map_to_list chain).*1.
Proof.
  intros Hkey.
  assert (∀ l : list (Z * Row),
            Forall (λ kr, row_strike kr.2 = kr.1) l →
            row_strike <$> l.*2 = l.*1) as Hl.
  { induction 1 as [|[k r] l Hkr Hl IH]; [done|].
    rewrite !fmap_cons. simpl in *. by rewrite IH, Hkr. }
  apply Hl, Forall_forall. intros [k r] Hin. simpl.
  by apply Hkey, elem_of_map_to_list.
Qed.

Lemma make_leg_unquoted q o :
  q !! quote_id o = None →
  make_leg q o =
  Ok {| leg_instrument_token := instrument_token o;
        leg_tradingsymbol := tradingsymbol o;
        leg_last_price := 0; leg_oi := 0; leg_volume := 0;
        leg_bid := 0; leg_ask := 0;
        leg_lot_size := default 0 (lot_size o) |}.
Proof. unfold make_leg, quote_id. by intros ->. Qed.

Lemma make_leg_no_depth q o quote leg :
  q !! quote_id o = Some quote → q_depth quote = None →
  make_leg q o = Ok leg → leg_bid leg = 0 ∧ leg_ask leg = 0.
Proof.
  unfold make_leg, quote_id, top_of_book. intros -> Hd. simpl.
  rewrite Hd. simpl. by intros [= <-].
Qed.
End builder.

(** ** C1: one row per strike, ascending *)

Section C1.
Import OptionChain.

(** C1.  Whenever the builder answers with a chain, the strikes of its
    rows, read in order, are strictly increasing; in particular no strike
    occurs twice. *)
Theorem chain_sorted_by_strike kite today symbol expiry_str body :
  get_option_chain kite today symbol expiry_str = Json body →
  StronglySorted Z.lt (row_strike <$> r_chain body) ∧
  NoDup (row_strike <$> r_chain body).
Proof.
  intros Hresp.
  apply get_option_chain_Json in Hresp
    as (sym & cat & options & chain & _ & _ & _ & Hbuild & ->).
  apply build_chain_inv in Hbuild. simpl in Hbuild.
  assert (NoDup (row_strike <$> sorted_chain chain)) as Hnd.
  { unfold sorted_chain. rewrite merge_sort_Permutation.
    rewrite row_strikes_are_keys by apply (inv_key _ _ _ Hbuild).
    apply NoDup_fst_map_to_list. }
  split; [|done].
  apply StronglySorted_le_NoDup_lt; [|done].
  apply StronglySorted_row_strikes.
  apply StronglySorted_merge_sort; apply _.
Qed.

Lemma chain_sorted_by_strike_witness :
  get_option_chain Sample.kite Sample.today (Some "nifty") None
    = Json Sample.nifty_body ∧
  StronglySorted Z.lt (row_strike <$> r_chain Sample.nifty_body) ∧
  NoDup (row_strike <$> r_chain Sample.nifty_body).
Proof.
  split; [vm_compute; reflexivity|].
  apply (chain_sorted_by_strike Sample.kite Sample.today (Some "nifty") None).
  vm_compute; reflexivity.
Defined.
End C1.

(** ** C6: one-sided strikes and unquoted legs *)

Section C6.
Import OptionChain.

(** C6.  In a chain the builder returns, every strike of the filtered
    contracts has a row; the row has exactly the keys [strike], [CE] and
    [PE], and a leg is [None] exactly when no filtered contract of that
    kind has the row's strike.  A leg that is present was made from a
    filtered contract of the row's strike; if that contract's identifier
    is missing from the fetched quotes, its last price, open interest,
    volume, bid and ask are [0]; if its quote has no depth, bid and ask
    are [0].  Making the leg of an unquoted contract never raises. *)
Theorem one_sided_and_unquoted_legs kite today sym expiry_str body :
  get_option_chain kite today (Some sym) expiry_str = Json body →
  ∃ cat options,
    instruments kite "NFO" = Ok cat ∧
    select_options cat sym expiry_str today = Ok (inl options) ∧
    let all_quotes := (fetch_quotes kite options).1 in
    (∀ o, o ∈ options →
       ∃ row, row ∈ r_chain body ∧ row_strike row = strike_of o) ∧
    (∀ row, row ∈ r_chain body →
       other row = [] ∧
       (CE row = None ↔
        ∀ o, o ∈ options → strike_of o = row_strike row →
             type_of o ≠ "CE") ∧
       (PE row = None ↔
        ∀ o, o ∈ options → strike_of o = row_strike row →
             type_of o ≠ "PE")) ∧
    (∀ row leg, row ∈ r_chain body →
       CE row = Some leg ∨ PE row = Some leg →
       ∃ o, o ∈ options ∧ strike_of o = row_strike row ∧
            make_leg all_quotes o = Ok leg ∧
            (all_quotes !! quote_id o = None →
             leg_last_price leg = 0 ∧ leg_oi leg = 0 ∧
             leg_volume leg = 0 ∧ leg_bid leg = 0 ∧ leg_ask leg = 0) ∧
            (∀ quote, all_quotes !! quote_id o = Some quote →
                      q_depth quote = None →
                      leg_bid leg = 0 ∧ leg_ask leg = 0)) ∧
    (∀ o, all_quotes !! quote_id o = None →
          ∃ leg, make_leg all_quotes o = Ok leg).
Proof.
  intros Hresp.
  apply get_option_chain_Json in Hresp
    as (sym' & cat & options & chain & [= <-] & Hcat & Hsel & Hbuild & Hch).
  exists cat, options. split_and!; [done..|]. simpl.
  apply build_chain_inv in Hbuild as [Hkey Hdom Hempty Hleg Hother].
  simpl in *. rewrite Hch.
  assert (Forall (λ o, type_of o ∈ ["CE"; "PE"]) options) as Htypes.
  { apply select_options_inl in Hsel as (_ & Hf & _).
    eapply Forall_impl; [exact Hf|]. intros o [_ Hty]. unfold type_of.
    apply elem_of_cons in Hty as [->|Hty%list_elem_of_singleton];
      [|rewrite Hty]; simpl; [apply CE_is_leg_key|apply PE_is_leg_key]. }
  assert (∀ row leg key, row ∈ sorted_chain chain → key ∈ ["CE"; "PE"] →
            leg_at key row = Some leg →
            ∃ o, o ∈ options ∧ strike_of o = row_strike row ∧
              make_leg (fetch_quotes kite options).1 o = Ok leg ∧
              ((fetch_quotes kite options).1 !! quote_id o = None →
               leg_last_price leg = 0 ∧ leg_oi leg = 0 ∧
               leg_volume leg = 0 ∧ leg_bid leg = 0 ∧ leg_ask leg = 0) ∧
              (∀ quote, (fetch_quotes kite options).1 !! quote_id o
                        = Some quote →
                        q_depth quote = None →
                        leg_bid leg = 0 ∧ leg_ask leg = 0)) as Hlegs.
  { intros row leg key [k Hk]%elem_of_sorted_chain Hkey_in Hl.
    destruct (Hleg k row key leg Hk Hkey_in Hl) as (o & Ho & Hs & _ & Hmk).
    exists o. rewrite (Hkey k row Hk). split_and!; [done..| |].
    - intros Hq. rewrite (make_leg_unquoted _ _ Hq) in Hmk.
      by injection Hmk as <-.
    - intros quote Hq Hd. by eapply make_leg_no_depth. }
  split_and!.
  - intros o Ho.
    assert (is_Some (chain !! strike_of o)) as [row Hrow]
      by (apply Hdom; eauto).
    exists row. split; [apply elem_of_sorted_chain; eauto|by eapply Hkey].
  - intros row [k Hk]%elem_of_sorted_chain.
    rewrite (Hkey k row Hk). split_and!.
    + by eapply Hother.
    + apply (Hempty k row "CE" Hk), CE_is_leg_key.
    + apply (Hempty k row "PE" Hk), PE_is_leg_key.
  - intros row leg Hrow [Hl|Hl].
    + apply (Hlegs row leg "CE"); [done|apply CE_is_leg_key|done].
    + apply (Hlegs row leg "PE"); [done|apply PE_is_leg_key|done].
  - intros o Hq. eexists. by apply make_leg_unquoted.
Qed.

Lemma one_sided_and_unquoted_legs_witness :
  ∃ cat options,
    instruments Sample.kite "NFO" = Ok cat ∧
    select_options cat "nifty" None Sample.today = Ok (inl options) ∧
    let all_quotes := (fetch_quotes Sample.kite options).1 in
    (∀ o, o ∈ options →
       ∃ row, row ∈ r_chain Sample.nifty_body ∧
              row_strike row = strike_of o) ∧
    (∀ row, row ∈ r_chain Sample.nifty_body →
       other row = [] ∧
       (CE row = None ↔
        ∀ o, o ∈ options → strike_of o = row_strike row →
             type_of o ≠ "CE") ∧
       (PE row = None ↔
        ∀ o, o ∈ options → strike_of o = row_strike row →
             type_of o ≠ "PE")) ∧
    (∀ row leg, row ∈ r_chain Sample.nifty_body →
       CE row = Some leg ∨ PE row = Some leg →
       ∃ o, o ∈ options ∧ strike_of o = row_strike row ∧
            make_leg all_quotes o = Ok leg ∧
            (all_quotes !! quote_id o = None →
             leg_last_price leg = 0 ∧ leg_oi leg = 0 ∧
             leg_volume leg = 0 ∧ leg_bid leg = 0 ∧ leg_ask leg = 0) ∧
            (∀ quote, all_quotes !! quote_id o = Some quote →
                      q_depth quote = None →
                      leg_bid leg = 0 ∧ leg_ask leg = 0)) ∧
    (∀ o, all_quotes !! quote_id o = None →
          ∃ leg, make_leg all_quotes o = Ok leg).
Proof.
  apply (one_sided_and_unquoted_legs Sample.kite Sample.today "nifty" None).
  vm_compute; reflexivity.
Defined.
End C6.

(** ** The batched quote fetch *)

Section batching.
Import OptionChain.
Local Open Scope nat_scope.

Lemma range_from_spec fuel : ∀ i stop step,
  0 < step → stop ≤ i + fuel * step →
  ∃ c, range_from fuel i stop step = (λ j, i + j * step) <$> seq 0 c ∧
       ((stop ≤ i ∧ c = 0) ∨
        (0 < c ∧ i + (c - 1) * step < stop ∧ stop ≤ i + c * step)).
Proof.
  induction fuel as [|fuel IH]; intros i stop step Hstep Hfuel.
  - exists 0. split; [done|]. left. lia.
  - simpl. destruct (i <? stop) eqn:Hlt.
    + apply Nat.ltb_lt in Hlt.
      destruct (IH (i + step) stop step Hstep) as (c & Hc & Hb); [lia|].
      exists (S c). split.
      * rewrite Hc. simpl. f_equal; [lia|].
        rewrite <- fmap_S_seq, <- list_fmap_compose.
        apply list_fmap_ext. intros _ j _. simpl. lia.
      * right. destruct Hb as [[Hle ->]|(Hpos & Hlo & Hhi)]; [simpl; lia|].
        split; [lia|]. replace (S c - 1) with (S (c - 1)) by lia.
        replace (S c) with (S (S (c - 1))) by lia.
        replace c with (S (c - 1)) in Hhi by lia. simpl in *. lia.
    + apply Nat.ltb_ge in Hlt. exists 0. split; [done|]. left. lia.
Qed.

Lemma ceil_div_bounds n d c :
  0 < d → (n = 0 ∧ c = 0) ∨ (0 < c ∧ (c - 1) * d < n ∧ n ≤ c * d) →
  c = ceil_div n d.
Proof.
  intros Hd Hb. unfold ceil_div.
  pose proof (Nat.div_mod_eq n d) as Hdm.
  pose proof (Nat.mod_upper_bound n d ltac:(lia)) as Hm.
  destruct (n mod d =? 0) eqn:E;
    [apply Nat.eqb_eq in E|apply Nat.eqb_neq in E];
    destruct Hb as [[-> ->]|(Hc & Hlo & Hhi)].
  - rewrite Nat.Div0.div_0_l. done.
  - replace c with (S (c - 1)) in Hhi by lia. simpl in Hhi. nia.
  - rewrite Nat.Div0.mod_0_l in E. done.
  - replace c with (S (c - 1)) in Hhi by lia. simpl in Hhi. nia.
Qed.

(** [range(0, n, 200)] is [0, 200, ...], one index per started block of
    200. *)
Lemma py_range_blocks n :
  py_range 0 n batch_size
  = (λ j, j * batch_size) <$> seq 0 (ceil_div n batch_size).
Proof.
  unfold py_range.
  destruct (range_from_spec n 0 n batch_size) as (c & -> & Hb);
    [unfold batch_size; lia..|].
  rewrite (ceil_div_bounds n batch_size c); [done|unfold batch_size; lia|].
  destruct Hb as [[? ->]|?]; [left|right]; lia.
Qed.

Lemma filter_all {A} (P : A → Prop) `{∀ x, Decision (P x)} (l : list A) :
  (∀ x, x ∈ l → P x) → filter P l = l.
Proof.
  induction l as [|x l IH]; intros HP; [done|].
  rewrite filter_cons_True by (apply HP, elem_of_cons; by left).
  f_equal. apply IH. intros y Hy. apply HP, elem_of_cons. by right.
Qed.

Lemma filter_none {A} (P : A → Prop) `{∀ x, Decision (P x)} (l : list A) :
  (∀ x, x ∈ l → ¬ P x) → filter P l = [].
Proof.
  induction l as [|x l IH]; intros HP; [done|].
  rewrite filter_cons_False by (apply HP, elem_of_cons; by left).
  apply IH. intros y Hy. apply HP, elem_of_cons. by right.
Qed.

(** With distinct keys, selecting the elements whose key lies in a slice
    of the keys selects that slice of the elements. *)
Lemma filter_slice {A B} `{EqDecision B} (f : A → B) (l : list A) i n :
  NoDup (f <$> l) →
  filter (λ x, f x ∈ take n (drop i (f <$> l))) l = take n (drop i l).
Proof.
  intros Hnd. rewrite <- fmap_drop, <- fmap_take.
  set (l2 := take n (drop i l)).
  assert (l = take i l ++ l2 ++ drop n (drop i l)) as Hl.
  { unfold l2. by rewrite !take_drop. }
  rewrite Hl in Hnd. rewrite !fmap_app in Hnd.
  apply NoDup_app in Hnd as (_ & Hd1 & Hnd).
  apply NoDup_app in Hnd as (_ & Hd2 & _).
  rewrite Hl at 1. rewrite !filter_app.
  rewrite (filter_none _ (take i l)), (filter_all _ l2),
    (filter_none _ (drop n (drop i l))).
  - by rewrite app_nil_r.
  - intros x Hx Hin. eapply Hd2; [exact Hin|]. by apply list_elem_of_fmap_2.
  - intros x Hx. by apply list_elem_of_fmap_2.
  - intros x Hx Hin. eapply Hd1; [by apply list_elem_of_fmap_2|].
    apply elem_of_app. by left.
Qed.

Lemma concat_blocks {A} (l : list A) n c :
  concat ((λ j, take n (drop (j * n) l)) <$> seq 0 c) = take (c * n) l.
Proof.
  induction c as [|c IH]; [done|].
  rewrite seq_S, fmap_app, concat_app, IH. simpl.
  rewrite app_nil_r, take_take_drop. f_equal. lia.
Qed.

(** The loop issues the calls of [batches], in order, whatever each call
    answers, and [all_quotes] is updated with the answers that came. *)
Lemma fetch_quotes_unfold kite options :
  fetch_quotes kite options
  = (update_all (successes kite (batches options)), batches options).
Proof.
  unfold fetch_quotes, batches, update_all, successes.
  set (tokens := instrument_token <$> options).
  set (ids_at := λ i, instrument_ids options (batch_at tokens i)).
  assert (∀ idxs m cs,
    foldl (fetch_batch kite options tokens) (m, cs) idxs
    = (foldl (λ all_quotes quotes, quotes ∪ all_quotes) m
         (successes kite (ids_at <$> idxs)),
       cs ++ (ids_at <$> idxs))) as Hfold.
  { induction idxs as [|i idxs IH]; intros m cs.
    - simpl. by rewrite app_nil_r.
    - simpl. unfold fetch_batch at 2. fold (ids_at i).
      unfold successes. simpl.
      destruct (quote kite (ids_at i)) as [quotes|e]; simpl;
        rewrite IH, <- (assoc_L (++)); done. }
  apply Hfold.
Qed.

(** With distinct tokens the batches are the consecutive blocks of 200
    identifiers. *)
Lemma batches_blocks options :
  NoDup (instrument_token <$> options) →
  batches options
  = (λ j, take batch_size (drop (j * batch_size) (quote_id <$> options)))
      <$> seq 0 (ceil_div (length options) batch_size).
Proof.
  intros Hnd. unfold batches. rewrite length_fmap, py_range_blocks.
  rewrite <- list_fmap_compose. apply list_fmap_ext. intros _ j _. simpl.
  unfold instrument_ids, batch_at.
  rewrite (filter_slice instrument_token options _ _ Hnd).
  by rewrite fmap_take, fmap_drop.
Qed.

Lemma ceil_div_covers n d : 0 < d → n ≤ ceil_div n d * d.
Proof.
  intros Hd. unfold ceil_div.
  pose proof (Nat.div_mod_eq n d) as Hdm.
  pose proof (Nat.mod_upper_bound n d ltac:(lia)) as Hm.
  destruct (n mod d =? 0) eqn:E;
    [apply Nat.eqb_eq in E|apply Nat.eqb_neq in E]; nia.
Qed.

Lemma concat_batches options :
  NoDup (instrument_token <$> options) →
  concat (batches options) = quote_id <$> options.
Proof.
  intros Hnd. rewrite (batches_blocks _ Hnd), concat_blocks.
  apply take_ge. rewrite length_fmap.
  apply ceil_div_covers. unfold batch_size. lia.
Qed.
End batching.

(** ** Merging the answers *)

Section merging.
Import OptionChain.

Lemma elem_of_concat {A} (x : A) (ls : list (list A)) :
  x ∈ concat ls ↔ ∃ l, l ∈ ls ∧ x ∈ l.
Proof.
  induction ls as [|l0 ls IH]; simpl.
  - split; [by intros ?%elem_of_nil|by intros (? & ?%elem_of_nil & _)].
  - rewrite elem_of_app, IH. split.
    + intros [Hx|(l & Hl & Hx)].
      * exists l0. split; [apply elem_of_cons; by left|done].
      * exists l. split; [apply elem_of_cons; by right|done].
    + intros (l & [->|Hl]%elem_of_cons & Hx); [by left|right; eauto].
Qed.

Lemma elem_of_successes kite calls quotes :
  quotes ∈ successes kite calls ↔
  ∃ c, c ∈ calls ∧ quote kite c = Ok quotes.
Proof.
  unfold successes. rewrite list_elem_of_omap. split.
  - intros (c & Hc & Hq). exists c. split; [done|].
    destruct (quote kite c); by simplify_eq.
  - intros (c & Hc & Hq). exists c. split; [done|]. by rewrite Hq.
Qed.

(** An entry of the merged mapping is an entry of the start mapping or of
    one of the answers. *)
Lemma foldl_update_lookup_Some (answers : list (gmap string Quote)) :
  ∀ m k v,
  foldl (λ all_quotes quotes, quotes ∪ all_quotes) m answers !! k = Some v →
  m !! k = Some v ∨ ∃ quotes, quotes ∈ answers ∧ quotes !! k = Some v.
Proof.
  induction answers as [|a answers IH]; intros m k v Hl; [by left|].
  simpl in Hl. apply IH in Hl as [Hl|(quotes & Hin & Hl)].
  - apply lookup_union_Some_raw in Hl as [Hl|[_ Hl]]; [|by left].
    right. exists a. split; [apply elem_of_cons; by left|done].
  - right. exists quotes. split; [apply elem_of_cons; by right|done].
Qed.

(** A key that no answer has is left as it was. *)
Lemma foldl_update_untouched (answers : list (gmap string Quote)) :
  ∀ m k, (∀ quotes, quotes ∈ answers → quotes !! k = None) →
  foldl (λ all_quotes quotes, quotes ∪ all_quotes) m answers !! k = m !! k.
Proof.
  induction answers as [|a answers IH]; intros m k Hnone; [done|].
  simpl. rewrite IH.
  - apply lookup_union_r, Hnone, elem_of_cons. by left.
  - intros quotes Hin. apply Hnone, elem_of_cons. by right.
Qed.

(** When the calls share no identifier and each answer is keyed by its
    call, every entry of every answer is in the merged mapping. *)
Lemma foldl_update_keeps kite (calls : list (list string)) :
  keyed_by_request kite → NoDup (concat calls) →
  ∀ m c quotes k v,
    c ∈ calls → quote kite c = Ok quotes → quotes !! k = Some v →
    foldl (λ all_quotes quotes, quotes ∪ all_quotes) m
          (successes kite calls) !! k = Some v.
Proof.
  intros Hkeyed. induction calls as [|c0 calls IH];
    intros Hnd m c quotes k v Hc Hq Hk.
  { by apply elem_of_nil in Hc. }
  simpl in Hnd. apply NoDup_app in Hnd as (_ & Hdisj & Hnd').
  apply elem_of_cons in Hc as [->|Hc].
  - unfold successes. simpl. rewrite Hq. simpl.
    rewrite foldl_update_untouched.
    + by apply lookup_union_Some_l.
    + intros quotes' [c' [Hc' Hq']]%elem_of_successes.
      destruct (quotes' !! k) eqn:E; [|done]. exfalso.
      apply (Hdisj k); [by eapply Hkeyed|].
      apply elem_of_concat. exists c'. split; [done|].
      eapply Hkeyed; [done|by rewrite E].
  - unfold successes. simpl.
    destruct (quote kite c0); simpl; by eapply IH.
Qed.
End merging.

(** ** C3: number, size and order of the batches, and the merged mapping *)

Section C3.
Import OptionChain.
Local Open Scope nat_scope.

(** C3.  For options with distinct tokens and distinct identifiers, and a
    provider that answers a call with quotes of the identifiers of that
    call, the fetch issues [⌈N/200⌉] calls; call [j] is the block of at
    most 200 identifiers that starts at position [200 j] of the input,
    so the calls in order make up the input; and the merged mapping has
    exactly the entries of the answers that came, each with the value
    its own answer gave it. *)
Theorem batched_fetch_calls kite options :
  NoDup (instrument_token <$> options) →
  NoDup (quote_id <$> options) →
  keyed_by_request kite →
  ∃ merged calls,
    fetch_quotes kite options = (merged, calls) ∧
    length calls = ceil_div (length options) 200 ∧
    Forall (λ c, length c ≤ 200) calls ∧
    (∀ j c, calls !! j = Some c →
            c = take 200 (drop (j * 200) (quote_id <$> options))) ∧
    concat calls = quote_id <$> options ∧
    (∀ k v, merged !! k = Some v ↔
            ∃ c quotes, c ∈ calls ∧ quote kite c = Ok quotes ∧
                        quotes !! k = Some v).
Proof.
  intros Htok Hids Hkeyed.
  exists (update_all (successes kite (batches options))), (batches options).
  split; [apply fetch_quotes_unfold|].
  pose proof (batches_blocks options Htok) as Hb.
  change batch_size with 200 in Hb.
  split_and!.
  - by rewrite Hb, length_fmap, length_seq.
  - rewrite Hb. apply Forall_fmap, Forall_forall. intros j _. simpl.
    rewrite length_take. lia.
  - intros j c. rewrite Hb, list_lookup_fmap.
    destruct (seq 0 _ !! j) as [j'|] eqn:Hj; [|done].
    apply lookup_seq in Hj as [-> _]. simpl. by intros [= <-].
  - by apply concat_batches.
  - intros k v. split.
    + intros Hl. apply foldl_update_lookup_Some in Hl
        as [Hl|(quotes & [c [Hc Hq]]%elem_of_successes & Hl)].
      * by rewrite lookup_empty in Hl.
      * by exists c, quotes.
    + intros (c & quotes & Hc & Hq & Hl).
      eapply foldl_update_keeps; [done| |done..].
      by rewrite concat_batches.
Qed.

Lemma append_cons x (a b : string) : String x a +:+ b = String x (a +:+ b).
Proof. reflexivity. Qed.

Lemma length_append (a b : string) :
  String.length (a +:+ b) = (String.length a + String.length b)%nat.
Proof.
  induction a as [|x a IH]; [done|]. rewrite append_cons. simpl.
  by rewrite IH.
Qed.

Lemma append_cancel_r (a b t : string) : a +:+ t = b +:+ t → a = b.
Proof.
  revert b. induction a as [|x a IH]; intros [|y b] H; [done| | |].
  - apply (f_equal String.length) in H.
    rewrite !length_append in H. simpl in H. lia.
  - apply (f_equal String.length) in H.
    rewrite !length_append in H. simpl in H. lia.
  - rewrite !append_cons in H. injection H as -> H. f_equal. by apply IH.
Qed.

(** The identifiers of the 401 sample contracts differ: the decimal
    numeral of the strike is injective. *)
Lemma wide_catalog_ids_NoDup : NoDup (quote_id <$> Sample.wide_catalog).
Proof.
  unfold Sample.wide_catalog. rewrite <- list_fmap_compose.
  apply NoDup_fmap_2; [|apply NoDup_seq].
  intros i j H. unfold compose, quote_id, Sample.contract in H.
  cbn [tradingsymbol] in H.
  do 2 apply (inj (String.app _)) in H.
  apply append_cancel_r, (inj pretty) in H. lia.
Qed.

Lemma echo_quote_keyed cat bad : keyed_by_request (Sample.echo_kite cat bad).
Proof.
  intros ids quotes k. simpl. unfold Sample.echo_quote.
  case_decide; [done|]. intros [= <-] [v Hv].
  apply elem_of_list_to_map_2, list_elem_of_fmap in Hv as (i & [= -> _] & Hi).
  done.
Qed.

Lemma batched_fetch_calls_witness :
  let kite := Sample.echo_kite Sample.wide_catalog [] in
  let options := Sample.wide_catalog in
  ∃ merged calls,
    fetch_quotes kite options = (merged, calls) ∧
    length calls = ceil_div (length options) 200 ∧
    Forall (λ c, length c ≤ 200) calls ∧
    (∀ j c, calls !! j = Some c →
            c = take 200 (drop (j * 200) (quote_id <$> options))) ∧
    concat calls = quote_id <$> options ∧
    (∀ k v, merged !! k = Some v ↔
            ∃ c quotes, c ∈ calls ∧ quote kite c = Ok quotes ∧
                        quotes !! k = Some v).
Proof.
  apply (batched_fetch_calls
           (Sample.echo_kite Sample.wide_catalog []) Sample.wide_catalog).
  - by_compute.
  - apply wide_catalog_ids_NoDup.
  - apply echo_quote_keyed.
Defined.
End C3.

(** ** C4: a batch that fails *)

Section C4.
Import OptionChain.

Lemma for_each_Ok {S A} (body : S → A → result S) (l : list A) :
  (∀ s x, x ∈ l → ∃ s', body s x = Ok s') →
  ∀ s, ∃ s', for_each body l s = Ok s'.
Proof.
  induction l as [|x l IH]; intros Hbody s; [by eexists|].
  destruct (Hbody s x) as [s1 Hs1]; [apply elem_of_cons; by left|].
  simpl. rewrite Hs1. simpl. apply IH.
  intros s2 y Hy. apply Hbody, elem_of_cons. by right.
Qed.

Lemma top_of_book_Ok_buy quote :
  (∀ q, quote = Some q → depth_ok q) → ∃ z, top_of_book quote buy = Ok z.
Proof.
  intros Hok. unfold top_of_book.
  destruct quote as [q|]; simpl; [|by eexists].
  destruct (q_depth q) as [d|] eqn:Hd; simpl; [|by eexists].
  destruct (depth_truthy d); [|by eexists].
  destruct (Hok q eq_refl d Hd) as [Hbuy _].
  destruct (buy d) as [[|l ls]|]; [done|by eexists..].
Qed.

Lemma top_of_book_Ok_sell quote :
  (∀ q, quote = Some q → depth_ok q) → ∃ z, top_of_book quote sell = Ok z.
Proof.
  intros Hok. unfold top_of_book.
  destruct quote as [q|]; simpl; [|by eexists].
  destruct (q_depth q) as [d|] eqn:Hd; simpl; [|by eexists].
  destruct (depth_truthy d); [|by eexists].
  destruct (Hok q eq_refl d Hd) as [_ Hsell].
  destruct (sell d) as [[|l ls]|]; [done|by eexists..].
Qed.

(** The chain loop runs to its end when every fetched quote has a usable
    depth. *)
Lemma build_chain_Ok all_quotes options st :
  (∀ k q, all_quotes !! k = Some q → depth_ok q) →
  ∃ st', build_chain all_quotes options st = Ok st'.
Proof.
  intros Hok. apply for_each_Ok. intros s opt _.
  unfold chain_step, make_leg.
  destruct (top_of_book_Ok_buy (all_quotes !! ("NFO:" +:+ tradingsymbol opt)))
    as [bid ->]; [intros q Hq; by eapply Hok|].
  destruct (top_of_book_Ok_sell (all_quotes !! ("NFO:" +:+ tradingsymbol opt)))
    as [ask ->]; [intros q Hq; by eapply Hok|].
  simpl. by eexists.
Qed.

Lemma successes_cons kite c calls :
  successes kite (c :: calls)
  = match quote kite c with
    | Ok quotes => quotes :: successes kite calls
    | Raise _ => successes kite calls
    end.
Proof. unfold successes. simpl. by destruct (quote kite c). Qed.

Lemma successes_delete kite calls : ∀ j ids e,
  calls !! j = Some ids → quote kite ids = Raise e →
  successes kite (delete j calls) = successes kite calls.
Proof.
  induction calls as [|c calls IH]; intros [|j] ids e Hj Hq; try done.
  - simpl in Hj. injection Hj as ->.
    change (delete 0%nat (ids :: calls)) with calls.
    by rewrite successes_cons, Hq.
  - simpl in Hj.
    change (delete (S j) (c :: calls)) with (c :: delete j calls).
    by rewrite !successes_cons, (IH j ids e Hj Hq).
Qed.

(** C4.  When the call for batch [j] raises, the fetch still returns: it
    has issued the call of every batch once, in order, and the mapping it
    returns is the merge of the answers to the other batches, so that each
    of its entries is an entry of the answer to another batch.  The
    request itself then ends with a chain, not with an error, provided the
    catalog was fetched, contracts were selected and the quotes that did
    come have a depth the builder can read. *)
Theorem failed_batch_is_skipped kite options j ids e :
  batches options !! j = Some ids → quote kite ids = Raise e →
  ∃ merged,
    fetch_quotes kite options = (merged, batches options) ∧
    merged = update_all (successes kite (delete j (batches options))) ∧
    (∀ k v, merged !! k = Some v →
            ∃ c quotes, c ∈ delete j (batches options) ∧
                        quote kite c = Ok quotes ∧ quotes !! k = Some v) ∧
    (∀ today sym expiry_str cat,
       sym ≠ EmptyString →
       instruments kite "NFO" = Ok cat →
       select_options cat sym expiry_str today = Ok (inl options) →
       (∀ c quotes k v, quote kite c = Ok quotes → quotes !! k = Some v →
                        depth_ok v) →
       ∃ body, get_option_chain kite today (Some sym) expiry_str
               = Json body).
Proof.
  intros Hj Hq.
  exists (update_all (successes kite (batches options))).
  pose proof (successes_delete kite _ _ _ _ Hj Hq) as Hdel.
  split_and!.
  - apply fetch_quotes_unfold.
  - by rewrite Hdel.
  - intros k v Hl. apply foldl_update_lookup_Some in Hl
      as [Hl|(quotes & Hin & Hl)]; [by rewrite lookup_empty in Hl|].
    rewrite <- Hdel in Hin.
    apply elem_of_successes in Hin as (c & Hc & Hqc). by exists c, quotes.
  - intros today sym expiry_str cat Hsym Hcat Hsel Hdepth.
    unfold get_option_chain. destruct sym as [|a sym]; [done|].
    unfold try_option_chain. rewrite Hcat. simpl. rewrite Hsel. simpl.
    destruct (build_chain_Ok (fetch_quotes kite options).1 options (∅, None))
      as [[chain ed] ->]; [|simpl; by eexists].
    intros k q. rewrite fetch_quotes_unfold. simpl. intros Hl.
    apply foldl_update_lookup_Some in Hl
      as [Hl|(quotes & [c [_ Hqc]]%elem_of_successes & Hl)];
      [by rewrite lookup_empty in Hl|].
    by eapply Hdepth.
Qed.

Lemma failed_batch_is_skipped_witness :
  let kite := Sample.echo_kite Sample.wide_catalog ["NFO:NIFTY26NOV30000CE"] in
  let options := Sample.wide_catalog in
  ∃ merged,
    fetch_quotes kite options = (merged, batches options) ∧
    merged = update_all (successes kite (delete 1%nat (batches options))) ∧
    (∀ k v, merged !! k = Some v →
            ∃ c quotes, c ∈ delete 1%nat (batches options) ∧
                        quote kite c = Ok quotes ∧ quotes !! k = Some v) ∧
    (∀ today sym expiry_str cat,
       sym ≠ EmptyString →
       instruments kite "NFO" = Ok cat →
       select_options cat sym expiry_str today = Ok (inl options) →
       (∀ c quotes k v, quote kite c = Ok quotes → quotes !! k = Some v →
                        depth_ok v) →
       ∃ body, get_option_chain kite today (Some sym) expiry_str
               = Json body).
Proof.
  eapply (failed_batch_is_skipped
            (Sample.echo_kite Sample.wide_catalog ["NFO:NIFTY26NOV30000CE"])
            Sample.wide_catalog 1%nat).
  - vm_compute. reflexivity.
  - vm_compute. reflexivity.
Defined.
End C4.

(** ** C5: an expiry string that is not a date *)

Section C5.
Import OptionChain.

(** C5 as stated fails: with a catalog that has options of the symbol, an
    expiry that does not parse is answered by the catch-all handler, with
    status 500. *)
Lemma malformed_expiry_counterexample :
  ∃ e, strptime_ymd "26-11-2026" = Raise e ∧
       get_option_chain Sample.kite Sample.today (Some "NIFTY")
                        (Some "26-11-2026")
       = JsonError 500 (StrOf e) ∧
       status_code (get_option_chain Sample.kite Sample.today (Some "NIFTY")
                                     (Some "26-11-2026")) ≠ 400.
Proof. eexists. split_and!; [vm_compute; reflexivity..|by vm_compute]. Qed.

(** C5, as the code has it.  A request with a symbol is never answered
    with status 400.  If the catalog was fetched and has an option of the
    symbol, a non-empty expiry string that [strptime] rejects is answered
    with status 500 and the text of the [ValueError]. *)
Theorem malformed_expiry_is_500 kite today sym expiry_str :
  sym ≠ EmptyString →
  status_code (get_option_chain kite today (Some sym) expiry_str) ≠ 400 ∧
  ∀ cat s e,
    expiry_str = Some s → s ≠ EmptyString →
    instruments kite "NFO" = Ok cat →
    filter (is_option_of (upper sym)) cat ≠ [] →
    strptime_ymd s = Raise e →
    get_option_chain kite today (Some sym) expiry_str
    = JsonError 500 (StrOf e).
Proof.
  intros Hsym. split.
  - unfold get_option_chain. destruct sym as [|a sym]; [done|].
    unfold try_option_chain.
    destruct (instruments kite "NFO") as [cat|e]; [|done]. simpl.
    unfold select_options. case_decide; [done|].
    destruct (filter_by_expiry _ _ _) as [kept|e]; [|done]. simpl.
    case_decide; [done|]. simpl.
    destruct (build_chain _ _ _) as [[chain ed]|e]; done.
  - intros cat s e -> Hs Hcat Hopts Hparse.
    unfold get_option_chain. destruct sym as [|a sym]; [done|].
    unfold try_option_chain. rewrite Hcat. simpl.
    unfold select_options. case_decide; [done|].
    unfold filter_by_expiry. destruct s as [|c s]; [done|].
    by rewrite Hparse.
Qed.

Lemma malformed_expiry_is_500_witness :
  status_code (get_option_chain Sample.kite Sample.today (Some "NIFTY")
                                (Some "2026-11-31")) ≠ 400 ∧
  get_option_chain Sample.kite Sample.today (Some "NIFTY")
                   (Some "2026-11-31")
  = JsonError 500 (StrOf (ValueError "date out of range: 2026-11-31")).
Proof.
  destruct (malformed_expiry_is_500 Sample.kite Sample.today "NIFTY"
              (Some "2026-11-31")) as [H400 H500]; [done|].
  split; [exact H400|].
  apply (H500 Sample.catalog "2026-11-31").
  - reflexivity.
  - discriminate.
  - reflexivity.
  - vm_compute. discriminate.
  - vm_compute. reflexivity.
Defined.
End C5.

(** ** C7 and C10: the live tick buffer *)

Section live_buffer.
Import Live.

Lemma get_live_ticks_buffer tokens (s1 s2 : State) :
  live_ticks s1 = live_ticks s2 →
  get_live_ticks tokens s1 = get_live_ticks tokens s2.
Proof. unfold get_live_ticks. by intros ->. Qed.

(** C7.  Whatever the state, and whether closing the connection succeeds
    or raises, [unsubscribe_live] answers "unsubscribed" and leaves no
    connection and an empty buffer: no token has an entry, a poll returns
    the empty mapping, and a filtered poll returns the empty mapping
    unless its [tokens] parameter does not convert. *)
Theorem unsubscribe_clears_buffer (close : result ()) (s : State)
    (tokens : string) (k : option Z) :
  let r := unsubscribe_live close s in
  r.1 = Json "unsubscribed" ∧
  kws r.2 = None ∧
  live_ticks r.2 = ∅ ∧
  live_ticks r.2 !! k = None ∧
  get_live_ticks EmptyString r.2 = Ok ∅ ∧
  (get_live_ticks tokens r.2 = Ok ∅ ∨
   ∃ e, token_list tokens = Raise e ∧ get_live_ticks tokens r.2 = Raise e).
Proof.
  simpl. split_and!; [done..|].
  unfold get_live_ticks. simpl. destruct tokens as [|c tokens]; [by left|].
  destruct (token_list (String c tokens)) as [l|e].
  - left. by rewrite map_filter_empty.
  - right. by exists e.
Qed.

Lemma upserts_untouched now ticks : ∀ buf k,
  k ∉ tick_instrument_token <$> ticks →
  foldl (upsert now) buf ticks !! k = buf !! k.
Proof.
  induction ticks as [|t ticks IH]; intros buf k Hk; [done|].
  rewrite fmap_cons, not_elem_of_cons in Hk. destruct Hk as [Hne Hk].
  simpl. rewrite IH by done. unfold upsert.
  by rewrite lookup_insert_ne.
Qed.

(** C10.  [subscribe_live] does not touch the buffer, whether it answers
    400, 500 or 200 and whether or not a connection was replaced: the
    buffer after it is the buffer before it, so every poll answers as
    before, for any token.  After further ticks the entry of a token that
    got no tick is still the old one. *)
Theorem subscribe_keeps_buffer (body : option SubscribeBody)
    (env : SubscribeEnv) (s : State) :
  let r := subscribe_live body env s in
  live_ticks r.2 = live_ticks s ∧
  (∀ tokens, get_live_ticks tokens r.2 = get_live_ticks tokens s) ∧
  (∀ now ticks k,
     k ∉ tick_instrument_token <$> ticks →
     live_ticks (on_ticks now ticks r.2) !! k = live_ticks s !! k).
Proof.
  simpl.
  assert (live_ticks (subscribe_live body env s).2 = live_ticks s) as Hbuf.
  { unfold subscribe_live. case_decide; [done|].
    destruct (env_new_ticker env); [|done].
    destruct (env_thread_start env); done. }
  split_and!; [done| |].
  - intros tokens. by apply get_live_ticks_buffer.
  - intros now ticks k Hk. simpl. rewrite Hbuf.
    by apply upserts_untouched.
Qed.

Lemma subscribe_keeps_buffer_witness :
  live_ticks
    (on_ticks "2026-11-03T09:15:01" [Sample.tick_200 101]
       (subscribe_live (Some Sample.resubscribe) Sample.calm
                       Sample.streaming).2)
    !! Some 100
  = live_ticks Sample.streaming !! Some 100.
Proof.
  destruct (subscribe_keeps_buffer (Some Sample.resubscribe) Sample.calm
              Sample.streaming) as (_ & _ & H).
  apply H. by_compute.
Defined.
End live_buffer.

(** ** C8: the scanner's nearest future *)

Section C8.
Import Scanner.

Lemma for_each_progress {S A} (body : S → A → result S)
    (I : list A → S → Prop) (l : list A) :
  (∀ done s x, x ∈ l → I done s →
               ∃ s', body s x = Ok s' ∧ I (done ++ [x]) s') →
  ∀ done s, I done s → ∃ s', for_each body l s = Ok s' ∧ I (done ++ l) s'.
Proof.
  induction l as [|x l IH]; intros Hstep done s HI.
  - exists s. by rewrite app_nil_r.
  - destruct (Hstep done s x) as (s1 & Hs1 & HI1);
      [apply elem_of_cons; by left|done|].
    destruct (IH (λ d s0 y Hy, Hstep d s0 y
                    (proj2 (elem_of_cons l y x) (or_intror Hy)))
                 (done ++ [x]) s1 HI1) as (s' & Hs' & HI').
    exists s'. simpl. rewrite Hs1. simpl. split; [done|].
    by rewrite (assoc_L (++) done [x] l : done ++ x :: l = _).
Qed.

Lemma date_lt_le a b : date_lt a b → date_le a b.
Proof. unfold date_lt. intros H. by destruct (total date_le a b). Qed.

Lemma nearest_inv_step today done fbs f :
  is_Some (name f) → nearest_inv today done fbs →
  ∃ fbs', select_step today fbs f = Ok fbs' ∧
          nearest_inv today (done ++ [f]) fbs'.
Proof.
  intros [n Hn] Hinv. unfold select_step. rewrite Hn.
  assert (∀ g, g ∈ done ++ [f] ↔ g ∈ done ∨ g = f) as Hin.
  { intros g. by rewrite elem_of_app, list_elem_of_singleton. }
  (* the old table is still right when [f] is not a candidate, or not a
     better one *)
  assert (∀ sym,
            (∀ e, expiry f = Some e → date_le today e → upper n = sym →
                  ∃ g ge, fbs !! sym = Some g ∧ expiry g = Some ge ∧
                          date_le ge e) →
            match fbs !! sym with
            | Some f0 =>
                f0 ∈ done ++ [f] ∧ upper <$> name f0 = Some sym ∧
                ∃ e, expiry f0 = Some e ∧ date_le today e ∧
                     ∀ g ge, g ∈ done ++ [f] → upper <$> name g = Some sym →
                             expiry g = Some ge → date_le today ge →
                             date_le e ge
            | None =>
                ∀ g ge, g ∈ done ++ [f] → upper <$> name g = Some sym →
                        expiry g = Some ge → ¬ date_le today ge
            end) as Hkeep.
  { intros sym Hf. specialize (Hinv sym).
    destruct (fbs !! sym) as [f0|] eqn:E.
    - destruct Hinv as (Hf0 & Hname & e & He & Hle & Hmin).
      split_and!; [rewrite Hin; by left|done|].
      exists e. split_and!; [done..|].
      intros g ge [Hg| ->]%Hin Hgn Hge Hup; [by eapply Hmin|].
      rewrite Hn in Hgn. simpl in Hgn. injection Hgn as Hgn.
      destruct (Hf ge Hge Hup Hgn) as (g0 & ge0 & [= <-] & Hge0 & Hle0).
      by simplify_eq.
    - intros g ge [Hg| ->]%Hin Hgn Hge Hup; [by eapply Hinv|].
      rewrite Hn in Hgn. simpl in Hgn. injection Hgn as Hgn.
      destruct (Hf ge Hge Hup Hgn) as (g0 & ge0 & [=] & _). }
  (* the table with [f] stored is right when [f] is upcoming and earlier
     than any upcoming future of its symbol seen so far *)
  assert (∀ exp, expiry f = Some exp → date_le today exp →
            (∀ g ge, g ∈ done → upper <$> name g = Some (upper n) →
                     expiry g = Some ge → date_le today ge →
                     date_le exp ge) →
            nearest_inv today (done ++ [f]) (<[upper n := f]> fbs))
    as Hstore.
  { intros exp Hexp Hup Hmin sym.
    destruct (decide (upper n = sym)) as [<-|Hne].
    - rewrite lookup_insert_eq. split_and!.
      + rewrite Hin. by right.
      + by rewrite Hn.
      + exists exp. split_and!; [done..|].
        intros g ge [Hg| ->]%Hin Hgn Hge Hgup; [by eapply Hmin|].
        by simplify_eq.
    - rewrite lookup_insert_ne by done. apply Hkeep.
      intros e _ _ Hsym. done. }
  destruct (expiry f) as [exp|] eqn:Hexp.
  - case_decide as Hup.
    + pose proof (Hinv (upper n)) as Hcur.
      destruct (fbs !! upper n) as [g0|] eqn:E.
      * destruct Hcur as (Hg0 & Hg0n & gexp & Hgexp & Hgup & Hgmin).
        rewrite Hgexp. case_decide as Hlt.
        -- eexists. split; [done|]. apply (Hstore exp); [done..|].
           intros g ge Hg Hgn Hge Hgeup.
           etrans; [by apply date_lt_le|]. by eapply Hgmin.
        -- eexists. split; [done|]. intros sym. apply Hkeep.
           intros e [= <-] _ <-. exists g0, gexp. split_and!; [done..|].
           unfold date_lt in Hlt. by apply dec_stable in Hlt.
      * eexists. split; [done|]. apply (Hstore exp); [done..|].
        intros g ge Hg Hgn Hge Hgeup. exfalso. by eapply Hcur.
    + eexists. split; [done|]. intros sym. apply Hkeep.
      intros e [= <-] ?. done.
  - eexists. split; [done|]. intros sym. apply Hkeep. done.
Qed.

Lemma elem_of_futures_of targets nfo sym g :
  sym ∈ targets →
  (∀ f, f ∈ nfo → instrument_type f = Some "FUT" → is_Some (name f)) →
  g ∈ futures_of sym nfo ↔
  g ∈ filter (is_future_of targets) nfo ∧ upper <$> name g = Some sym.
Proof.
  intros Hsym Hnames. unfold futures_of, is_future_of.
  rewrite !list_elem_of_filter. split.
  - intros [[Hty Hname] Hg]. destruct (Hnames g Hg Hty) as [n Hn].
    rewrite Hn in *. simpl in *. subst sym. done.
  - intros [[[Hty _] Hg] Hname]. destruct (name g) as [n|]; [|done].
    simpl in *. by simplify_eq.
Qed.

(** C8 as stated fails for a symbol whose futures have all expired: the
    builder's step falls back to the latest expiry, the scanner selects
    no future. *)
Lemma scanner_selection_counterexample :
  selected_expiry Sample.today ["NIFTY"] [Sample.fut_oct] "NIFTY"
  = Ok None ∧
  spec_nearest_future_expiry Sample.today [Sample.fut_oct] "NIFTY"
  = Some Sample.oct29.
Proof. split; vm_compute; reflexivity. Qed.

(** C8, as the code has it.  For a requested symbol, when every future of
    the catalog has a name, the scanner's loop ends with a table that
    holds, if some future of the symbol expires on or after [today], a
    future of the symbol whose expiry is the one the builder's selection
    step chooses for the symbol's futures (the earliest expiry on or after
    [today]); and that holds no future for the symbol if none of its
    futures expires on or after [today]. *)
Theorem scanner_selects_nearest_upcoming today targets nfo sym :
  sym ∈ targets →
  (∀ f, f ∈ nfo → instrument_type f = Some "FUT" → is_Some (name f)) →
  ∃ fbs, futures_by_symbol today targets nfo = Ok fbs ∧
    ((∃ f e, f ∈ futures_of sym nfo ∧ expiry f = Some e ∧ date_le today e) →
     ∃ f e, fbs !! sym = Some f ∧ f ∈ futures_of sym nfo ∧
            expiry f = Some e ∧ date_le today e ∧
            spec_nearest_future_expiry today nfo sym = Some e ∧
            selected_expiry today targets nfo sym = Ok (Some e)) ∧
    ((∀ f e, f ∈ futures_of sym nfo → expiry f = Some e →
             ¬ date_le today e) →
     fbs !! sym = None ∧
     selected_expiry today targets nfo sym = Ok None).
Proof.
  intros Hsym Hnames.
  destruct (for_each_progress (select_step today) (nearest_inv today)
              (filter (is_future_of targets) nfo)) with (done := @nil Instrument)
              (s := (∅ : gmap string Instrument)) as (fbs & Hrun & Hinv).
  { intros done s f [[Hty _] Hf]%list_elem_of_filter HI.
    apply nearest_inv_step; [by apply Hnames|done]. }
  { intros sym'. rewrite lookup_empty. by intros g ge ?%elem_of_nil. }
  simpl in Hinv. exists fbs. split; [done|].
  unfold selected_expiry, futures_by_symbol in *. rewrite Hrun. simpl.
  specialize (Hinv sym). split.
  - intros (f0 & e0 & Hf0 & He0 & Hup0).
    apply (elem_of_futures_of targets) in Hf0 as [Hf0 Hn0]; [|done..].
    destruct (fbs !! sym) as [f|] eqn:E; [|exfalso; by eapply Hinv].
    destruct Hinv as (Hf & Hname & e & He & Hup & Hmin).
    assert (f ∈ futures_of sym nfo) as Hfin
      by (by apply (elem_of_futures_of targets)).
    exists f, e. split_and!; [done..| |simpl; by rewrite He].
    unfold spec_nearest_future_expiry.
    assert (e ∈ OptionChain.expiries_of (futures_of sym nfo)) as Hein
      by (apply elem_of_expiries_of; eauto).
    destruct (nearest_expiry_upcoming today _ e Hein Hup)
      as (n & -> & Hnin & Hnup & Hnmin).
    f_equal. apply (anti_symm date_le); [by apply Hnmin|].
    apply elem_of_expiries_of in Hnin as (g & Hg & Hge).
    apply (elem_of_futures_of targets) in Hg as [Hg Hgn]; [|done..].
    by eapply Hmin.
  - intros Hpast. destruct (fbs !! sym) as [f|] eqn:E; [|done].
    destruct Hinv as (Hf & Hname & e & He & Hup & _). exfalso.
    eapply Hpast; [|done..]. by apply (elem_of_futures_of targets).
Qed.

Lemma scanner_selects_nearest_upcoming_witness :
  ∃ f e, f ∈ futures_of "NIFTY" Sample.catalog ∧
         expiry f = Some e ∧ date_le Sample.today e ∧
         spec_nearest_future_expiry Sample.today Sample.catalog "NIFTY"
         = Some e ∧
         selected_expiry Sample.today ["NIFTY"] Sample.catalog "NIFTY"
         = Ok (Some e).
Proof.
  destruct (scanner_selects_nearest_upcoming Sample.today ["NIFTY"]
              Sample.catalog "NIFTY") as (fbs & _ & Hup & _).
  - by_compute.
  - intros f Hf _. revert f Hf. apply Forall_forall. by_compute.
  - destruct Hup as (f & e & _ & H).
    + exists Sample.fut_nov, Sample.nov26. split_and!.
      * by_compute.
      * reflexivity.
      * by_compute.
    + by exists f, e.
Defined.
End C8.


(** * Further properties of the handlers *)

(** ** When the builder answers 200, and when 404 *)

Section builder_status.
Import OptionChain.

Lemma top_of_book_buy_Ok_inv quote z :
  top_of_book quote buy = Ok z →
  ∀ q d, quote = Some q → q_depth q = Some d → buy d ≠ Some [].
Proof.
  unfold top_of_book. intros H q d -> Hd Hb. simpl in H.
  rewrite Hd in H. simpl in H.
  assert (depth_truthy d = true) as Ht.
  { unfold depth_truthy. apply bool_decide_eq_true. left. by rewrite Hb. }
  by rewrite Ht, Hb in H.
Qed.

Lemma top_of_book_sell_Ok_inv quote z :
  top_of_book quote sell = Ok z →
  ∀ q d, quote = Some q → q_depth q = Some d → sell d ≠ Some [].
Proof.
  unfold top_of_book. intros H q d -> Hd Hb. simpl in H.
  rewrite Hd in H. simpl in H.
  assert (depth_truthy d = true) as Ht.
  { unfold depth_truthy. apply bool_decide_eq_true. right. by rewrite Hb. }
  by rewrite Ht, Hb in H.
Qed.

(** The leg of a contract can be made exactly when its quote, if there is
    one, has no empty side in its depth. *)
Lemma make_leg_Ok_iff all_quotes o :
  (∃ leg, make_leg all_quotes o = Ok leg) ↔
  (∀ q, all_quotes !! quote_id o = Some q → depth_ok q).
Proof.
  unfold quote_id. split.
  - intros [leg Hleg] q Hq d Hd. unfold make_leg in Hleg.
    destruct (top_of_book _ buy) as [bid|] eqn:Hbid; [|done].
    simpl in Hleg.
    destruct (top_of_book _ sell) as [ask|] eqn:Hask; [|done].
    split.
    + by eapply top_of_book_buy_Ok_inv.
    + by eapply top_of_book_sell_Ok_inv.
  - intros Hok. unfold make_leg.
    destruct (top_of_book_Ok_buy (all_quotes !! ("NFO:" +:+ tradingsymbol o)))
      as [bid ->]; [intros q Hq; by apply Hok|].
    destruct (top_of_book_Ok_sell (all_quotes !! ("NFO:" +:+ tradingsymbol o)))
      as [ask ->]; [intros q Hq; by apply Hok|].
    simpl. by eexists.
Qed.

Lemma chain_step_Ok_iff all_quotes st o :
  (∃ st', chain_step all_quotes st o = Ok st') ↔
  (∃ leg, make_leg all_quotes o = Ok leg).
Proof.
  unfold chain_step. destruct (make_leg all_quotes o) as [leg|e]; simpl.
  - split; intros _; by eexists.
  - split; by intros [? ?].
Qed.

Lemma for_each_Ok_inv {S A} (body : S → A → result S) (P : A → Prop)
    (l : list A) :
  (∀ s x s', body s x = Ok s' → P x) →
  ∀ s s', for_each body l s = Ok s' → Forall P l.
Proof.
  intros HP. induction l as [|x l IH]; intros s s' Hrun; [constructor|].
  simpl in Hrun. destruct (body s x) as [s1|e] eqn:Hb; [|done].
  constructor; [by eapply HP|by eapply IH].
Qed.

(** The chain loop runs to its end exactly when every leg can be made. *)
Lemma build_chain_Ok_iff all_quotes options st :
  (∃ st', build_chain all_quotes options st = Ok st') ↔
  (∀ o q, o ∈ options → all_quotes !! quote_id o = Some q → depth_ok q).
Proof.
  split.
  - intros [st' Hrun] o q Ho.
    eapply (for_each_Ok_inv (chain_step all_quotes)
              (λ o, ∀ q, all_quotes !! quote_id o = Some q → depth_ok q))
      in Hrun.
    + rewrite Forall_forall in Hrun. by apply Hrun.
    + intros s x s' Hs. apply make_leg_Ok_iff, (chain_step_Ok_iff _ s).
      by eexists.
  - intros Hok. apply for_each_Ok. intros s o Ho.
    apply chain_step_Ok_iff, make_leg_Ok_iff. intros q. by apply Hok.
Qed.

(** The request is answered with a chain exactly when it has a symbol, the
    catalog was fetched, the selection is not empty, and no selected
    contract has a fetched quote whose depth has an empty side: one such
    quote turns the whole request into an error. *)
Theorem option_chain_answers_200_iff kite today symbol expiry_str :
  (∃ body, get_option_chain kite today symbol expiry_str = Json body) ↔
  ∃ sym cat kept,
    symbol = Some sym ∧ sym ≠ EmptyString ∧
    instruments kite "NFO" = Ok cat ∧
    select_options cat sym expiry_str today = Ok (inl kept) ∧
    ∀ o q, o ∈ kept →
           (fetch_quotes kite kept).1 !! quote_id o = Some q → depth_ok q.
Proof.
  split.
  - intros [body Hresp].
    destruct (get_option_chain_Json _ _ _ _ _ Hresp)
      as (sym & cat & kept & chain & -> & Hcat & Hsel & Hb & _).
    exists sym, cat, kept. split_and!; [done| |done..|].
    + intros ->. done.
    + apply (proj1 (build_chain_Ok_iff _ _ (∅, None))). by eexists.
  - intros (sym & cat & kept & -> & Hsym & Hcat & Hsel & Hok).
    unfold get_option_chain. destruct sym as [|a sym]; [done|].
    unfold try_option_chain. rewrite Hcat. simpl. rewrite Hsel. simpl.
    destruct (proj2 (build_chain_Ok_iff (fetch_quotes kite kept).1 kept
                       (∅, None)) Hok) as [[chain ed] ->].
    simpl. by eexists.
Qed.

Lemma nearest_expiry_elem_of today options e :
  nearest_expiry today options = Some e → e ∈ expiries_of options.
Proof.
  unfold nearest_expiry.
  destruct (filter (date_le today) (expiries_of options)) as [|n t] eqn:E.
  - apply last_Some_elem_of.
  - intros [= <-].
    assert (n ∈ filter (date_le today) (expiries_of options)) as Hn
      by (rewrite E; apply elem_of_cons; by left).
    by apply list_elem_of_filter in Hn as [_ ?].
Qed.

(** Without a requested expiry the selection of a non-empty list is not
    empty. *)
Lemma nearest_selection_nonempty expiry_str today options kept :
  expiry_str = None ∨ expiry_str = Some EmptyString →
  options ≠ [] →
  filter_by_expiry expiry_str today options = Ok kept → kept ≠ [].
Proof.
  intros Hstr Hne Hf.
  assert (filter_by_expiry None today options = Ok kept) as Hf'
    by (by destruct Hstr as [-> | ->]).
  clear Hf. unfold filter_by_expiry in Hf'.
  destruct (nearest_expiry today options) as [e|] eqn:Hn;
    injection Hf' as <-; [|done].
  apply nearest_expiry_elem_of, elem_of_expiries_of in Hn as (o & Ho & He).
  intros Hnil.
  assert (o ∈ with_expiry e options) as Hin
    by (by apply list_elem_of_filter).
  rewrite Hnil in Hin. by apply elem_of_nil in Hin.
Qed.

(** The request is answered with 404 exactly when the catalog was fetched
    and either holds no option of the symbol, or the request names an
    expiry that parses and no option of the symbol has that expiry.  A
    request that names no expiry is never answered with 404 once the symbol
    has an option. *)
Theorem option_chain_answers_404_iff kite today symbol expiry_str :
  status_code (get_option_chain kite today symbol expiry_str) = 404 ↔
  ∃ sym cat,
    symbol = Some sym ∧ sym ≠ EmptyString ∧
    instruments kite "NFO" = Ok cat ∧
    (filter (is_option_of (upper sym)) cat = [] ∨
     ∃ s d, expiry_str = Some s ∧ s ≠ EmptyString ∧
            strptime_ymd s = Ok d ∧
            with_expiry d (filter (is_option_of (upper sym)) cat) = []).
Proof.
  unfold get_option_chain.
  destruct symbol as [[|a sym]|].
  { split; [done|]. by intros (? & ? & [= <-] & ? & _). }
  2: { split; [done|]. by intros (? & ? & ? & _). }
  unfold try_option_chain.
  destruct (instruments kite "NFO") as [cat|e] eqn:Hcat; simpl.
  2: { split; [done|]. by intros (? & ? & _ & _ & ? & _). }
  unfold select_options.
  set (options := filter (is_option_of (upper (String a sym))) cat).
  destruct (decide (options = [])) as [Hnil|Hne]; simpl.
  { split; [|done]. intros _. exists (String a sym), cat.
    split_and!; [done..|]. by left. }
  destruct (filter_by_expiry expiry_str today options) as [kept|e] eqn:Hf;
    simpl.
  2: { split; [done|].
       intros (sym' & cat' & [= <-] & _ & [= <-] & [Hnil|Hex]); [done|].
       destruct Hex as (s & d & -> & Hs & Hp & _).
       unfold filter_by_expiry in Hf. destruct s as [|c s]; [done|].
       by rewrite Hp in Hf. }
  destruct (decide (kept = [])) as [Hk|Hk]; simpl.
  - split; [|done]. intros _. exists (String a sym), cat.
    split_and!; [done..|]. right.
    destruct expiry_str as [[|c s]|].
    + exfalso. eapply nearest_selection_nonempty; [by right|done..].
    + unfold filter_by_expiry in Hf.
      destruct (strptime_ymd (String c s)) as [d|] eqn:Hp; [|done].
      simpl in Hf. injection Hf as Hf. exists (String c s), d.
      split_and!; [done..|]. fold options. congruence.
    + exfalso. eapply nearest_selection_nonempty; [by left|done..].
  - destruct (build_chain (fetch_quotes kite kept).1 kept (∅, None))
      as [[chain ed]|e]; simpl; (split; [done|]);
      intros (sym' & cat' & [= <-] & _ & [= <-] & [Hnil|Hex]); try done;
      destruct Hex as (s & d & -> & Hs & Hp & Hw);
      unfold filter_by_expiry in Hf; (destruct s as [|c s]; [done|]);
      rewrite Hp in Hf; simpl in Hf; injection Hf as Hf;
      fold options in Hw; congruence.
Qed.
End builder_status.

(** ** The symbol is matched without regard to case *)

Section builder_symbol.
Import OptionChain.

Lemma upper_ascii_idemp c : upper_ascii (upper_ascii c) = upper_ascii c.
Proof. destruct c as [[] [] [] [] [] [] [] []]; reflexivity. Qed.

Lemma upper_idemp s : upper (upper s) = upper s.
Proof.
  induction s as [|c s IH]; [done|].
  simpl. by rewrite upper_ascii_idemp, IH.
Qed.

Lemma try_option_chain_upper kite today sym expiry_str :
  try_option_chain kite today (upper sym) expiry_str
  = try_option_chain kite today sym expiry_str ∨
  (try_option_chain kite today sym expiry_str
   = Ok (JsonError 404 (Message ("No options found for " +:+ sym))) ∧
   try_option_chain kite today (upper sym) expiry_str
   = Ok (JsonError 404 (Message ("No options found for " +:+ upper sym)))).
Proof.
  unfold try_option_chain.
  destruct (instruments kite "NFO") as [cat|e]; [|by left].
  change (Ok cat ≫= ?f) with (f cat). cbv beta.
  unfold select_options. rewrite !upper_idemp.
  case_decide; [by right|by left].
Qed.

(** A request for a symbol and the request for the symbol in upper case
    get the same answer, except that the 404 for a symbol without options
    names the symbol as it was typed. *)
Theorem option_chain_symbol_case kite today sym expiry_str :
  get_option_chain kite today (Some (upper sym)) expiry_str
  = get_option_chain kite today (Some sym) expiry_str ∨
  (get_option_chain kite today (Some sym) expiry_str
   = JsonError 404 (Message ("No options found for " +:+ sym)) ∧
   get_option_chain kite today (Some (upper sym)) expiry_str
   = JsonError 404 (Message ("No options found for " +:+ upper sym))).
Proof.
  destruct sym as [|a sym]; [by left|].
  assert (∀ s, s ≠ EmptyString →
            get_option_chain kite today (Some s) expiry_str
            = match try_option_chain kite today s expiry_str with
              | Ok resp => resp
              | Raise e => JsonError 500 (StrOf e)
              end) as Hget.
  { by intros [|c s] Hs. }
  rewrite !Hget by done.
  destruct (try_option_chain_upper kite today (String a sym) expiry_str)
    as [-> | [-> ->]]; [by left|by right].
Qed.
End builder_symbol.

(** ** Two contracts of one strike and kind *)

Section builder_last_wins.
Import OptionChain.



End builder_last_wins.

(** ** The spot price is best effort *)

Section builder_spot.
Import OptionChain.

Lemma foldl_ext_in {A B} (f g : A → B → A) (l : list B) :
  (∀ a b, f a b = g a b) → ∀ a, foldl f a l = foldl g a l.
Proof.
  intros Hfg. induction l as [|b l IH]; intros a; [done|].
  simpl. by rewrite Hfg, IH.
Qed.

Lemma fetch_quotes_ext k1 k2 options :
  (∀ ids, quote k1 ids = quote k2 ids) →
  fetch_quotes k1 options = fetch_quotes k2 options.
Proof.
  intros Hq. unfold fetch_quotes. apply foldl_ext_in.
  intros st i. unfold fetch_batch. by rewrite Hq.
Qed.

Lemma select_options_inr cat sym expiry_str today resp :
  select_options cat sym expiry_str today = Ok (inr resp) →
  status_code resp = 404.
Proof.
  unfold select_options. case_decide; [by intros [= <-]|].
  destruct (filter_by_expiry _ _ _); [|done]. simpl.
  case_decide; [by intros [= <-]|done].
Qed.

(** Two brokers that agree on the catalog and on the quotes get answers
    that differ at most in the spot price, however the spot lookup goes;
    and when the spot lookup raises, the spot price of a chain is 0. *)
Theorem spot_price_is_best_effort k1 k2 today symbol expiry_str :
  instruments k1 "NFO" = instruments k2 "NFO" →
  (∀ ids, quote k1 ids = quote k2 ids) →
  match get_option_chain k1 today symbol expiry_str,
        get_option_chain k2 today symbol expiry_str with
  | Json b1, Json b2 =>
      r_symbol b1 = r_symbol b2 ∧ r_expiry b1 = r_expiry b2 ∧
      r_chain b1 = r_chain b2 ∧
      (∀ sym e, symbol = Some sym →
                ltp k2 [spot_id (upper sym)] = Raise e →
                r_spot_price b2 = 0)
  | JsonError st1 err1, JsonError st2 err2 => st1 = st2 ∧ err1 = err2
  | _, _ => False
  end.
Proof.
  intros Hcat Hq. unfold get_option_chain.
  destruct symbol as [[|a sym]|]; [done| |done].
  unfold try_option_chain. rewrite <- Hcat.
  destruct (instruments k1 "NFO") as [cat|e]; [|done]. simpl.
  destruct (select_options cat _ _ _) as [[kept|[b|st err]]|e] eqn:Hsel;
    simpl; [|by apply select_options_inr in Hsel|done..].
  rewrite <- (fetch_quotes_ext k1 k2 kept Hq).
  destruct (build_chain _ _ _) as [[chain ed]|e]; simpl; [|done].
  split_and!; [done..|].
  intros sym' e [= <-] Hltp. unfold get_spot_price.
  change (String (upper_ascii a) (upper sym)) with (upper (String a sym)).
  by rewrite Hltp.
Qed.

Lemma spot_price_is_best_effort_witness :
  match get_option_chain Sample.kite Sample.today (Some "nifty") None,
        get_option_chain Sample.kite_without_spot Sample.today
                         (Some "nifty") None with
  | Json b1, Json b2 =>
      r_symbol b1 = r_symbol b2 ∧ r_expiry b1 = r_expiry b2 ∧
      r_chain b1 = r_chain b2 ∧
      (∀ sym e, Some "nifty" = Some sym →
                ltp Sample.kite_without_spot [spot_id (upper sym)] = Raise e →
                r_spot_price b2 = 0)
  | JsonError st1 err1, JsonError st2 err2 => st1 = st2 ∧ err1 = err2
  | _, _ => False
  end.
Proof.
  apply (spot_price_is_best_effort Sample.kite Sample.kite_without_spot
           Sample.today (Some "nifty") None).
  - reflexivity.
  - intros ids. reflexivity.
Defined.
End builder_spot.

(** ** The expiry and the strikes of the response *)

Section builder_shape.
Import OptionChain.

Lemma chain_step_expiry q st opt st' :
  chain_step q st opt = Ok st' →
  st'.2 = match st.2 with
          | Some e => Some e
          | None => expiry opt
          end.
Proof.
  unfold chain_step. destruct (make_leg q opt); [|done]. simpl.
  intros [= <-]. simpl. by destruct (st.2), (expiry opt).
Qed.

(** [expiry_date] ends as the first expiry the loop met. *)
Lemma build_chain_expiry q options st :
  build_chain q options (∅, None) = Ok st →
  st.2 = head (omap expiry options).
Proof.
  intros Hrun.
  apply (for_each_inv (chain_step q)
           (λ done s, s.2 = head (omap expiry done)))
    with (done := []) (l := options) (s := (∅, None)); [|done..].
  clear. intros done s opt s' IH Hstep.
  rewrite (chain_step_expiry _ _ _ _ Hstep), IH, omap_app. simpl.
  destruct (omap expiry done) as [|e l]; simpl; [|done].
  by destruct (expiry opt).
Qed.

(** The expiry a chain reports is the expiry of its contracts: the
    requested date if the request names one, the nearest expiry if it does
    not; and all contracts of the chain have that expiry.  It is absent only
    if no expiry was requested and no option of the symbol carries one. *)
Theorem response_expiry_is_selected_expiry kite today symbol expiry_str body :
  get_option_chain kite today symbol expiry_str = Json body →
  ∃ sym cat kept,
    symbol = Some sym ∧ instruments kite "NFO" = Ok cat ∧
    select_options cat sym expiry_str today = Ok (inl kept) ∧
    ((∃ s d, expiry_str = Some s ∧ s ≠ EmptyString ∧
             strptime_ymd s = Ok d ∧ r_expiry body = Some d ∧
             Forall (λ o, expiry o = Some d) kept) ∨
     ((expiry_str = None ∨ expiry_str = Some EmptyString) ∧
      r_expiry body
      = nearest_expiry today (filter (is_option_of (upper sym)) cat) ∧
      Forall (λ o, expiry o = r_expiry body) kept)).
Proof.
  intros Hresp.
  apply get_option_chain_Json in Hresp
    as (sym & cat & kept & chain & -> & Hcat & Hsel & Hbuild & Hch).
  exists sym, cat, kept. split_and!; [done..|].
  apply build_chain_expiry in Hbuild. simpl in Hbuild.
  apply select_options_inl in Hsel as (Hne & _ & Hf).
  set (options := filter (is_option_of (upper sym)) cat) in *.
  assert (∀ d, kept = with_expiry d options →
               r_expiry body = Some d ∧
               Forall (λ o, expiry o = Some d) kept) as Hdate.
  { intros d Hk.
    assert (Forall (λ o, expiry o = Some d) kept) as Hall.
    { rewrite Hk. apply Forall_forall.
      by intros o [? _]%list_elem_of_filter. }
    split; [|done]. rewrite Hbuild.
    destruct kept as [|o kept']; [done|].
    apply Forall_cons in Hall as [Ho _]. simpl. by rewrite Ho. }
  unfold filter_by_expiry in Hf.
  assert (match nearest_expiry today options with
          | Some e => Ok (with_expiry e options)
          | None => Ok options
          end = Ok kept →
          r_expiry body = nearest_expiry today options ∧
          Forall (λ o, expiry o = r_expiry body) kept) as Hnear.
  { destruct (nearest_expiry today options) as [e|] eqn:Hn; intros [= Hk].
    - destruct (Hdate e (eq_sym Hk)) as [-> Hall]. done.
    - pose proof (proj1 (nearest_expiry_None _ _) Hn) as Hnone.
      subst kept.
      assert (r_expiry body = None) as ->.
      { rewrite Hbuild.
        assert (omap expiry options = []) as ->; [|done].
        clear -Hnone. induction options as [|o l IH]; [done|].
        simpl. rewrite (Hnone o) by (apply elem_of_cons; by left).
        apply IH. intros o' Ho'. apply Hnone, elem_of_cons. by right. }
      split; [done|]. by apply Forall_forall. }
  destruct expiry_str as [[|c s]|].
  - right. split; [by right|]. by apply Hnear.
  - left. destruct (strptime_ymd (String c s)) as [d|] eqn:Hp; [|done].
    simpl in Hf. injection Hf as Hf. exists (String c s), d.
    destruct (Hdate d (eq_sym Hf)). by split_and!.
  - right. split; [by left|]. by apply Hnear.
Qed.

Lemma response_expiry_is_selected_expiry_witness :
  ∃ sym cat kept,
    Some "nifty" = Some sym ∧ instruments Sample.kite "NFO" = Ok cat ∧
    select_options cat sym (Some "2026-12-31") Sample.today
    = Ok (inl kept) ∧
    ((∃ s d, Some "2026-12-31" = Some s ∧ s ≠ EmptyString ∧
             strptime_ymd s = Ok d ∧
             r_expiry Sample.december_body = Some d ∧
             Forall (λ o, expiry o = Some d) kept) ∨
     ((Some "2026-12-31" = None ∨ Some "2026-12-31" = Some EmptyString) ∧
      r_expiry Sample.december_body
      = nearest_expiry Sample.today
          (filter (is_option_of (upper sym)) cat) ∧
      Forall (λ o, expiry o = r_expiry Sample.december_body) kept)).
Proof.
  apply (response_expiry_is_selected_expiry Sample.kite Sample.today
           (Some "nifty") (Some "2026-12-31")).
  vm_compute. reflexivity.
Defined.
End builder_shape.

Section builder_strikes.
Import OptionChain.

Lemma sorted_chain_strikes_NoDup (chain : gmap Z Row) :
  (∀ k r, chain !! k = Some r → row_strike r = k) →
  NoDup (row_strike <$> sorted_chain chain).
Proof.
  intros Hkey. unfold sorted_chain. rewrite merge_sort_Permutation.
  rewrite row_strikes_are_keys by done. apply NoDup_fst_map_to_list.
Qed.

(** The strikes of a chain, read in order, are the distinct strikes of the
    selected contracts in increasing order: one row per strike, no row
    without a contract. *)
Theorem chain_strikes_are_the_selected_strikes kite today symbol expiry_str
    body :
  get_option_chain kite today symbol expiry_str = Json body →
  ∃ sym cat kept,
    symbol = Some sym ∧ instruments kite "NFO" = Ok cat ∧
    select_options cat sym expiry_str today = Ok (inl kept) ∧
    row_strike <$> r_chain body
    = merge_sort Z.le (remove_dups (strike_of <$> kept)).
Proof.
  intros Hresp.
  apply get_option_chain_Json in Hresp
    as (sym & cat & kept & chain & -> & Hcat & Hsel & Hbuild & ->).
  exists sym, cat, kept. split_and!; [done..|].
  apply build_chain_inv in Hbuild as [Hkey Hdom _ _ _]. simpl in *.
  apply (StronglySorted_unique Z.le).
  - apply StronglySorted_row_strikes, StronglySorted_merge_sort; apply _.
  - apply StronglySorted_merge_sort; apply _.
  - rewrite merge_sort_Permutation. apply NoDup_Permutation.
    + by apply sorted_chain_strikes_NoDup.
    + apply NoDup_remove_dups.
    + intros x. rewrite elem_of_remove_dups, !list_elem_of_fmap. split.
      * intros (row & -> & [k Hk]%elem_of_sorted_chain).
        rewrite (Hkey k row Hk).
        destruct (proj1 (Hdom k)) as (o & Ho & Hs); [by eexists|].
        by exists o.
      * intros (o & -> & Ho).
        destruct (proj2 (Hdom (strike_of o))) as [row Hrow]; [by exists o|].
        exists row. split; [by rewrite (Hkey _ _ Hrow)|].
        apply elem_of_sorted_chain. by eexists.
Qed.

Lemma chain_strikes_are_the_selected_strikes_witness :
  ∃ sym cat kept,
    Some "nifty" = Some sym ∧ instruments Sample.kite "NFO" = Ok cat ∧
    select_options cat sym None Sample.today = Ok (inl kept) ∧
    row_strike <$> r_chain Sample.nifty_body
    = merge_sort Z.le (remove_dups (strike_of <$> kept)).
Proof.
  apply (chain_strikes_are_the_selected_strikes Sample.kite Sample.today
           (Some "nifty") None).
  vm_compute. reflexivity.
Defined.
End builder_strikes.

(** ** The calls of the fetch, whatever the tokens *)

Section batching_coverage.
Import OptionChain.
Local Open Scope nat_scope.

Lemma ceil_div_lt n d j : 0 < d → j < ceil_div n d → j * d < n.
Proof.
  intros Hd. unfold ceil_div.
  pose proof (Nat.div_mod_eq n d) as Hdm.
  pose proof (Nat.mod_upper_bound n d ltac:(lia)) as Hm.
  destruct (n mod d =? 0) eqn:E;
    [apply Nat.eqb_eq in E|apply Nat.eqb_neq in E]; nia.
Qed.

Lemma ceil_div_gt n d i : 0 < d → i < n → i / d < ceil_div n d.
Proof.
  intros Hd Hi. pose proof (ceil_div_covers n d Hd) as Hc.
  apply Nat.Div0.div_lt_upper_bound. lia.
Qed.

Lemma elem_of_batches options c :
  c ∈ batches options ↔
  ∃ j, j < ceil_div (length options) batch_size ∧
       c = instrument_ids options
             (batch_at (instrument_token <$> options) (j * batch_size)).
Proof.
  unfold batches. rewrite length_fmap, py_range_blocks.
  rewrite <- list_fmap_compose, list_elem_of_fmap. split.
  - intros (j & -> & Hj). apply list_elem_of_lookup in Hj as [i Hi].
    apply lookup_seq in Hi as [-> Hi]. by exists i.
  - intros (j & Hj & ->). exists j. split; [done|].
    apply list_elem_of_lookup. exists j. by apply lookup_seq.
Qed.

Lemma option_in_its_batch options i o :
  options !! i = Some o →
  quote_id o ∈ instrument_ids options
                 (batch_at (instrument_token <$> options)
                           (i / batch_size * batch_size)).
Proof.
  intros Hi. unfold instrument_ids, batch_at.
  apply list_elem_of_fmap_2, list_elem_of_filter.
  split; [|by eapply list_elem_of_lookup_2].
  apply elem_of_take. exists (i mod batch_size). split.
  - rewrite lookup_drop, list_lookup_fmap.
    replace (i / batch_size * batch_size + i mod batch_size) with i.
    + by rewrite Hi.
    + pose proof (Nat.div_mod_eq i batch_size). lia.
  - apply Nat.mod_upper_bound. unfold batch_size. lia.
Qed.

(** Also when tokens repeat, the fetch issues [⌈N/200⌉] calls, none of them
    empty; the identifier of every selected contract is in at least one
    call, and every identifier in a call is that of a selected contract. *)
Theorem every_contract_is_requested kite options :
  let calls := (fetch_quotes kite options).2 in
  length calls = ceil_div (length options) 200 ∧
  Forall (λ c, c ≠ []) calls ∧
  (∀ o, o ∈ options → ∃ c, c ∈ calls ∧ quote_id o ∈ c) ∧
  (∀ c id, c ∈ calls → id ∈ c → ∃ o, o ∈ options ∧ quote_id o = id).
Proof.
  simpl. rewrite fetch_quotes_unfold. simpl. split_and!.
  - unfold batches.
    by rewrite length_fmap, length_fmap, py_range_blocks, length_fmap,
      length_seq.
  - apply Forall_forall. intros c (j & Hj & ->)%elem_of_batches Hnil.
    apply ceil_div_lt in Hj; [|unfold batch_size; lia].
    destruct (lookup_lt_is_Some_2 options (j * batch_size) Hj) as [o Ho].
    pose proof (option_in_its_batch options _ o Ho) as Hin.
    rewrite Nat.div_mul in Hin by (unfold batch_size; lia).
    rewrite Hnil in Hin.
    by apply elem_of_nil in Hin.
  - intros o [i Hi]%list_elem_of_lookup_1.
    exists (instrument_ids options
              (batch_at (instrument_token <$> options)
                        (i / batch_size * batch_size))).
    split; [|by apply option_in_its_batch].
    apply elem_of_batches. exists (i / batch_size). split; [|done].
    apply ceil_div_gt; [unfold batch_size; lia|]. by eapply lookup_lt_Some.
  - intros c id (j & _ & ->)%elem_of_batches Hid.
    unfold instrument_ids in Hid.
    apply list_elem_of_fmap in Hid as (o & -> & [_ Ho]%list_elem_of_filter).
    by exists o.
Qed.
End batching_coverage.

(** ** Dates: what [strptime] accepts, and [isoformat] *)

Section dates.

Lemma digit_value_bounds c v : digit_value c = Some v → 0 ≤ v ≤ 9.
Proof.
  unfold digit_value.
  destruct (_ && _) eqn:E; [|done]. intros [= <-].
  apply andb_true_iff in E as [?%Z.leb_le ?%Z.leb_le]. lia.
Qed.

Lemma year_field_bounds cs y : year_field cs = Some y → 0 ≤ y ≤ 9999.
Proof.
  destruct cs as [|a [|b [|c [|d [|? ?]]]]]; try done. simpl.
  destruct (digit_value a) as [a'|] eqn:Ha; [|done].
  destruct (digit_value b) as [b'|] eqn:Hb; [|done].
  destruct (digit_value c) as [c'|] eqn:Hc; [|done].
  destruct (digit_value d) as [d'|] eqn:Hd; [|done].
  simpl. intros [= <-].
  apply digit_value_bounds in Ha, Hb, Hc, Hd. lia.
Qed.

Lemma month_field_bounds cs m : month_field cs = Some m → 1 ≤ m ≤ 12.
Proof.
  destruct cs as [|a [|b [|? ?]]]; try done; simpl.
  - destruct (digit_value a) as [a'|] eqn:Ha; [|done]. simpl.
    destruct (1 <=? a') eqn:E; [|done]. intros [= <-].
    apply digit_value_bounds in Ha. apply Z.leb_le in E. lia.
  - destruct (digit_value a) as [a'|]; [|done].
    destruct (digit_value b) as [b'|]; [|done]. simpl.
    destruct (_ && _) eqn:E; [|done]. intros [= <-].
    apply andb_true_iff in E as [?%Z.leb_le ?%Z.leb_le]. lia.
Qed.

Lemma day_field_bounds cs d : day_field cs = Some d → 1 ≤ d.
Proof.
  destruct cs as [|a [|b [|? ?]]]; try done; simpl.
  - destruct (digit_value a) as [a'|]; [|done]. simpl.
    destruct (1 <=? a') eqn:E; [|done]. intros [= <-].
    by apply Z.leb_le in E.
  - destruct (digit_value b) as [b'|]; [|done]. simpl.
    case_decide.
    + destruct (1 <=? b') eqn:E; [|done]. intros [= <-].
      by apply Z.leb_le in E.
    + destruct (digit_value a) as [a'|]; [|done]. simpl.
      destruct (_ && _) eqn:E; [|done]. intros [= <-].
      by apply andb_true_iff in E as [?%Z.leb_le _].
Qed.

(** Every date [strptime] returns is a date of the calendar: the month is
    1 to 12, the day exists in that month of that year (29 February only in
    leap years), and the year is 1 to 9999. *)
Theorem strptime_returns_calendar_dates s d :
  strptime_ymd s = Ok d → valid_date d.
Proof.
  unfold strptime_ymd, match_ymd.
  destruct (cut_dash _) as [[ys r1]|]; [|done]. simpl.
  destruct (cut_dash r1) as [[ms ds]|]; [|done]. simpl.
  destruct (year_field ys) as [y|] eqn:Hy; [|done]. simpl.
  destruct (month_field ms) as [m|] eqn:Hm; [|done]. simpl.
  destruct (day_field ds) as [dd|] eqn:Hd; [|done]. simpl.
  destruct (_ && _) eqn:E; [|done]. intros [= <-].
  apply andb_true_iff in E as [Hy1%Z.leb_le Hdm%Z.leb_le].
  apply year_field_bounds in Hy. apply month_field_bounds in Hm.
  apply day_field_bounds in Hd. unfold valid_date. simpl. lia.
Qed.

Lemma strptime_returns_calendar_dates_witness :
  valid_date (mkDate 2028 2 29).
Proof.
  apply (strptime_returns_calendar_dates "2028-2-29").
  vm_compute. reflexivity.
Defined.

Lemma digit_value_digit_char n :
  digit_value (digit_char n) = Some (n mod 10).
Proof.
  unfold digit_char.
  pose proof (Z.mod_pos_bound n 10 ltac:(lia)) as Hr.
  assert (n mod 10 = 0 ∨ n mod 10 = 1 ∨ n mod 10 = 2 ∨ n mod 10 = 3 ∨
          n mod 10 = 4 ∨ n mod 10 = 5 ∨ n mod 10 = 6 ∨ n mod 10 = 7 ∨
          n mod 10 = 8 ∨ n mod 10 = 9) as Hcases by lia.
  destruct Hcases as [->|[->|[->|[->|[->|[->|[->|[->|[->| ->]]]]]]]]];
    reflexivity.
Qed.

Lemma strptime_of_digits c1 c2 c3 c4 m1 m2 d1 d2
    v1 v2 v3 v4 w1 w2 u1 u2 y m dd :
  digit_value c1 = Some v1 → digit_value c2 = Some v2 →
  digit_value c3 = Some v3 → digit_value c4 = Some v4 →
  digit_value m1 = Some w1 → digit_value m2 = Some w2 →
  digit_value d1 = Some u1 → digit_value d2 = Some u2 →
  1000 * v1 + 100 * v2 + 10 * v3 + v4 = y →
  10 * w1 + w2 = m → 10 * u1 + u2 = dd →
  1 ≤ y → 1 ≤ m ≤ 12 → 1 ≤ dd ≤ 31 → dd ≤ days_in_month y m →
  strptime_ymd
    (String c1 (String c2 (String c3 (String c4 (String "-"
       (String m1 (String m2 (String "-"
          (String d1 (String d2 EmptyString))))))))))
  = Ok (mkDate y m dd).
Proof.
  intros H1 H2 H3 H4 H5 H6 H7 H8 Hy Hm Hd Hy1 Hm1 Hd1 Hdm.
  assert (∀ c v, digit_value c = Some v → c ≠ "-"%char ∧ c ≠ " "%char)
    as Hdigit.
  { intros c v Hc. split; intros ->; vm_compute in Hc; done. }
  unfold strptime_ymd, match_ymd. simpl.
  destruct (decide (c1 = "-"%char)) as [?|_]; [by destruct (Hdigit _ _ H1)|].
  destruct (decide (c2 = "-"%char)) as [?|_]; [by destruct (Hdigit _ _ H2)|].
  destruct (decide (c3 = "-"%char)) as [?|_]; [by destruct (Hdigit _ _ H3)|].
  destruct (decide (c4 = "-"%char)) as [?|_]; [by destruct (Hdigit _ _ H4)|].
  simpl.
  destruct (decide (m1 = "-"%char)) as [?|_]; [by destruct (Hdigit _ _ H5)|].
  destruct (decide (m2 = "-"%char)) as [?|_]; [by destruct (Hdigit _ _ H6)|].
  simpl. rewrite H1, H2, H3, H4. simpl. rewrite H5, H6. simpl.
  rewrite Hy, Hm.
  assert ((1 <=? m) && (m <=? 12) = true) as ->
    by (apply andb_true_iff; split; apply Z.leb_le; lia).
  simpl. rewrite H8. simpl.
  destruct (decide (d1 = " "%char)) as [?|_]; [by destruct (Hdigit _ _ H7)|].
  rewrite H7. simpl. rewrite Hd.
  assert ((1 <=? dd) && (dd <=? 31) = true) as ->
    by (apply andb_true_iff; split; apply Z.leb_le; lia).
  simpl.
  assert ((1 <=? y) && (dd <=? days_in_month y m) = true) as ->
    by (apply andb_true_iff; split; apply Z.leb_le; lia).
  done.
Qed.

Lemma isoformat_chars y m dd :
  isoformat (mkDate y m dd)
  = String (digit_char (y / 1000)) (String (digit_char (y / 100))
      (String (digit_char (y / 10)) (String (digit_char y) (String "-"
         (String (digit_char (m / 10)) (String (digit_char m) (String "-"
            (String (digit_char (dd / 10))
               (String (digit_char dd) EmptyString))))))))).
Proof. reflexivity. Qed.

(** [strptime] reads back what [isoformat] writes: the expiry string of a
    response or of a catalog row, sent as the [expiry] parameter, is parsed
    to the same date. *)
Theorem strptime_reads_isoformat d :
  valid_date d → strptime_ymd (isoformat d) = Ok d.
Proof.
  destruct d as [y m dd]. unfold valid_date.
  cbn [year month day]. intros (Hy & Hm & Hd).
  assert (dd ≤ 31) as Hd31.
  { unfold days_in_month in Hd.
    destruct (m =? 2); [destruct (is_leap y)|destruct (_ || _)]; lia. }
  rewrite isoformat_chars.
  apply (strptime_of_digits _ _ _ _ _ _ _ _
           ((y / 1000) mod 10) ((y / 100) mod 10) ((y / 10) mod 10)
           (y mod 10) ((m / 10) mod 10) (m mod 10)
           ((dd / 10) mod 10) (dd mod 10));
    try apply digit_value_digit_char; try lia.
  - Z.div_mod_to_equations. lia.
  - Z.div_mod_to_equations. lia.
  - Z.div_mod_to_equations. lia.
Qed.

Lemma strptime_reads_isoformat_witness :
  strptime_ymd (isoformat Sample.nov26) = Ok Sample.nov26.
Proof.
  apply (strptime_reads_isoformat Sample.nov26). unfold valid_date.
  vm_compute. by repeat split.
Defined.
End dates.

(** ** The live buffer under deliveries and polls *)

Section live_more.
Import Live Deliveries.




(** A poll answers with entries of the buffer only; with a [tokens]
    parameter it answers with exactly the entries of the tokens the
    parameter lists, and never with the entry of a tick that had no
    token. *)
Theorem poll_answers_listed_tokens tokens s m :
  get_live_ticks tokens s = Ok m →
  m ⊆ live_ticks s ∧
  (tokens = EmptyString → m = live_ticks s) ∧
  (tokens ≠ EmptyString →
   ∃ l, token_list tokens = Ok l ∧
        ∀ k v, m !! k = Some v ↔
               live_ticks s !! k = Some v ∧ ∃ z, k = Some z ∧ z ∈ l).
Proof.
  unfold get_live_ticks. destruct tokens as [|c tokens].
  - intros [= <-]. by split_and!.
  - destruct (token_list (String c tokens)) as [l|e]; [|done].
    intros [= <-]. split_and!; [apply map_filter_subseteq|done|].
    intros _. exists l. split; [done|]. intros k v.
    rewrite map_lookup_filter_Some. simpl.
    rewrite list_elem_of_fmap. naive_solver.
Qed.

Lemma poll_answers_listed_tokens_witness :
  {[ Some 100 := Sample.entry_100 ]} ⊆ live_ticks Sample.streaming ∧
  (" 100, 300" = EmptyString →
   {[ Some 100 := Sample.entry_100 ]} = live_ticks Sample.streaming) ∧
  (" 100, 300" ≠ EmptyString →
   ∃ l, token_list " 100, 300" = Ok l ∧
        ∀ k v, ({[ Some 100 := Sample.entry_100 ]}
                  : gmap (option Z) LiveTick) !! k = Some v ↔
               live_ticks Sample.streaming !! k = Some v ∧
               ∃ z, k = Some z ∧ z ∈ l).
Proof.
  apply (poll_answers_listed_tokens " 100, 300" Sample.streaming).
  vm_compute. reflexivity.
Defined.


End live_more.

(** ** The groups of [get_fno_instruments] *)

Section grouping.
Import Catalog.

Lemma group_step_other grouped inst sym :
  name inst ≠ Some sym ∨ sym = EmptyString →
  sym ≠ EmptyString ∨ grouped !! EmptyString = None →
  group_step grouped inst !! sym = grouped !! sym.
Proof.
  intros Hname Hsym. unfold group_step.
  case_decide as Hempty; [done|].
  assert (default "" (name inst) ≠ sym) as Hne.
  { destruct Hname as [Hname| ->]; [|done].
    destruct (name inst); simpl in *; congruence. }
  assert (∀ g : gmap string Group,
            match grouped !! default "" (name inst) with
            | None => <[default "" (name inst) :=
                          {| g_futures := []; g_options := [] |}]> grouped
            | Some _ => grouped
            end !! sym = grouped !! sym) as Hsame.
  { intros _. destruct (grouped !! default "" (name inst)); [done|].
    by rewrite lookup_insert_ne. }
  repeat case_decide; rewrite ?lookup_alter_ne by done; by apply Hsame.
Qed.

Lemma group_step_same grouped inst sym :
  name inst = Some sym → sym ≠ EmptyString →
  group_step grouped inst !! sym
  = Some
      (let g := default {| g_futures := []; g_options := [] |}
                        (grouped !! sym) in
       if decide (instrument_type inst = Some "FUT") then
         add_future (fno_entry inst) g
       else if decide (instrument_type inst ∈ [Some "CE"; Some "PE"]) then
         add_option (fno_entry inst) g
       else g).
Proof.
  intros Hname Hsym. unfold group_step. rewrite Hname. simpl.
  case_decide; [done|].
  destruct (grouped !! sym) as [g|] eqn:Hg; simpl;
    repeat case_decide;
    rewrite ?lookup_alter_eq, ?lookup_insert_eq, ?Hg; done.
Qed.

(** The answer of [get_fno_instruments] has one group for every non-empty
    name of the catalog and no other; the group of a name holds the entries
    of the rows that carry exactly this name (the case matters), the
    futures under [futures] and the calls and puts under [options], both in
    catalog order.  A name whose rows are of other kinds has a group with
    two empty lists. *)
Theorem fno_groups_by_name kite grouped :
  get_fno_instruments kite = Json grouped →
  ∃ cat, instruments kite "NFO" = Ok cat ∧
    ∀ sym,
      grouped !! sym
      = if decide (sym ≠ EmptyString ∧
                   Exists (λ i, name i = Some sym) cat) then
          Some {| g_futures :=
                    fno_entry <$>
                      filter (λ i, name i = Some sym ∧
                                   instrument_type i = Some "FUT") cat;
                  g_options :=
                    fno_entry <$>
                      filter (λ i, name i = Some sym ∧
                                   instrument_type i ∈ [Some "CE"; Some "PE"])
                             cat |}
        else None.
Proof.
  unfold get_fno_instruments.
  destruct (instruments kite "NFO") as [cat|e]; [|done].
  intros [= <-]. exists cat. split; [done|].
  induction cat as [|inst cat IH] using rev_ind; intros sym.
  { simpl. rewrite lookup_empty. case_decide as H; [|done].
    destruct H as [_ H]. by apply Exists_nil in H. }
  rewrite foldl_snoc.
  destruct (decide (name inst = Some sym ∧ sym ≠ EmptyString))
    as [[Hname Hsym]|Hother].
  - rewrite (group_step_same _ _ _ Hname Hsym), IH.
    destruct (decide (sym ≠ EmptyString ∧
                      Exists (λ i, name i = Some sym) (cat ++ [inst])))
      as [_|Hno].
    2: { exfalso. apply Hno. split; [done|]. apply Exists_app. right.
         by apply Exists_cons_hd. }
    f_equal. rewrite !filter_app, !fmap_app.
    assert (default {| g_futures := []; g_options := [] |}
              (if decide (sym ≠ EmptyString ∧
                          Exists (λ i, name i = Some sym) cat) then
                 Some {| g_futures :=
                           fno_entry <$>
                             filter (λ i, name i = Some sym ∧
                                          instrument_type i = Some "FUT") cat;
                         g_options :=
                           fno_entry <$>
                             filter (λ i, name i = Some sym ∧
                                          instrument_type i
                                          ∈ [Some "CE"; Some "PE"]) cat |}
               else None)
            = {| g_futures :=
                   fno_entry <$>
                     filter (λ i, name i = Some sym ∧
                                  instrument_type i = Some "FUT") cat;
                 g_options :=
                   fno_entry <$>
                     filter (λ i, name i = Some sym ∧
                                  instrument_type i
                                  ∈ [Some "CE"; Some "PE"]) cat |}) as ->.
    { case_decide as Hcat; [done|]. simpl.
      rewrite !filter_none; [done|..];
        intros i Hi [Hn _]; apply Hcat; (split; [done|]);
        apply Exists_exists; eauto. }
    cbv zeta. unfold add_future, add_option. simpl.
    destruct (decide (instrument_type inst = Some "FUT")) as [Hfut|Hfut].
    + rewrite (filter_cons_True _ inst) by done.
      rewrite (filter_cons_False _ inst).
      * by rewrite !filter_nil, app_nil_r.
      * intros [_ Hin]. rewrite Hfut in Hin.
        apply elem_of_cons in Hin as [?|Hin%list_elem_of_singleton]; done.
    + rewrite (filter_cons_False _ inst) by (by intros [_ ?]).
      destruct (decide (instrument_type inst ∈ [Some "CE"; Some "PE"]))
        as [Hopt|Hopt].
      * rewrite (filter_cons_True _ inst) by done.
        by rewrite !filter_nil, app_nil_r.
      * rewrite (filter_cons_False _ inst) by (by intros [_ ?]).
        by rewrite !filter_nil, !app_nil_r.
  - destruct (decide (sym = EmptyString)) as [->|Hsym].
    + rewrite decide_False by (by intros [? _]).
      specialize (IH EmptyString).
      rewrite decide_False in IH by (by intros [? _]).
      rewrite group_step_other; [done|by right|by right].
    + assert (name inst ≠ Some sym) as Hname.
      { intros Hn. apply Hother. by split. }
      rewrite group_step_other, IH; [|by left|by left].
      rewrite !filter_app.
      rewrite !(filter_cons_False _ inst) by (by intros [? _]).
      rewrite !filter_nil, !app_nil_r.
      assert (Exists (λ i, name i = Some sym) (cat ++ [inst])
              ↔ Exists (λ i, name i = Some sym) cat) as Hex.
      { rewrite Exists_app, Exists_cons, Exists_nil. split; [|by left].
        intros [?|[?|?]]; done. }
      destruct (decide (sym ≠ EmptyString ∧
                        Exists (λ i, name i = Some sym) cat)) as [Hc|Hc];
        destruct (decide (sym ≠ EmptyString ∧
                          Exists (λ i, name i = Some sym) (cat ++ [inst])))
          as [Hc'|Hc']; try done; exfalso.
      * apply Hc'. destruct Hc as [? Hc]. split; [done|]. by apply Hex.
      * apply Hc. destruct Hc' as [? Hc']. split; [done|]. by apply Hex.
Qed.

Lemma fno_groups_by_name_witness :
  ∃ cat, instruments Sample.kite "NFO" = Ok cat ∧
    ∀ sym,
      foldl group_step ∅ Sample.catalog !! sym
      = if decide (sym ≠ EmptyString ∧
                   Exists (λ i, name i = Some sym) cat) then
          Some {| g_futures :=
                    fno_entry <$>
                      filter (λ i, name i = Some sym ∧
                                   instrument_type i = Some "FUT") cat;
                  g_options :=
                    fno_entry <$>
                      filter (λ i, name i = Some sym ∧
                                   instrument_type i ∈ [Some "CE"; Some "PE"])
                             cat |}
        else None.
Proof.
  apply (fno_groups_by_name Sample.kite). reflexivity.
Defined.
End grouping.

(** ** The scanner's table in insertion order *)

Section scanner_table.
Import Scanner ScannerFetch.

Lemma assoc_get_list_to_map {V} k (t : list (string * V)) :
  assoc_get k t = (list_to_map t : gmap string V) !! k.
Proof.
  induction t as [|[k' v'] t IH]; [done|].
  simpl. rewrite lookup_insert. by case_decide.
Qed.

Lemma assoc_set_list_to_map {V} k (v : V) (t : list (string * V)) :
  (list_to_map (assoc_set k v t) : gmap string V)
  = <[k := v]> (list_to_map t).
Proof.
  induction t as [|[k' v'] t IH]; [done|].
  simpl. case_decide as Hk; simpl.
  - subst k'. by rewrite insert_insert_eq.
  - rewrite IH. by apply insert_insert_ne.
Qed.

Lemma assoc_set_keys {V} k (v : V) (t : list (string * V)) :
  (assoc_set k v t).*1 = if decide (k ∈ t.*1) then t.*1 else t.*1 ++ [k].
Proof.
  induction t as [|[k' v'] t IH]; [done|].
  simpl. destruct (decide (k' = k)) as [->|Hne].
  - rewrite decide_True by (apply elem_of_cons; by left). done.
  - rewrite fmap_cons, IH. simpl.
    destruct (decide (k ∈ t.*1)) as [Hin|Hin].
    + rewrite decide_True by (apply elem_of_cons; by right). done.
    + rewrite decide_False; [done|].
      intros [?|?]%elem_of_cons; [congruence|done].
Qed.

Lemma assoc_set_NoDup {V} k (v : V) (t : list (string * V)) :
  NoDup t.*1 → NoDup (assoc_set k v t).*1.
Proof.
  intros Hnd. rewrite assoc_set_keys. case_decide as Hin; [done|].
  apply NoDup_app. split_and!; [done| |apply NoDup_singleton].
  intros x Hx ->%list_elem_of_singleton. done.
Qed.

(** One iteration on the ordered dictionary does what it does on the
    mapping the dictionary stands for. *)
Lemma select_step_ordered_refines today t f :
  match select_step_ordered today t f with
  | Ok t' => select_step today (list_to_map t) f = Ok (list_to_map t') ∧
             (NoDup t.*1 → NoDup t'.*1)
  | Raise e => select_step today (list_to_map t) f = Raise e
  end.
Proof.
  unfold select_step_ordered, select_step.
  destruct (name f) as [n|]; [|done].
  destruct (expiry f) as [exp|]; [|done].
  case_decide; [|done].
  rewrite <- assoc_get_list_to_map.
  destruct (assoc_get (upper n) t) as [g|].
  - destruct (expiry g) as [gexp|]; [|done].
    case_decide; [|done].
    rewrite assoc_set_list_to_map. split; [done|apply assoc_set_NoDup].
  - rewrite assoc_set_list_to_map. split; [done|apply assoc_set_NoDup].
Qed.

Lemma nearest_inv_empty today : nearest_inv today [] ∅.
Proof. intros sym. rewrite lookup_empty. by intros g ge ?%elem_of_nil. Qed.

(** What the loop leaves: distinct symbols, and for each symbol the
    nearest upcoming future. *)
Lemma ordered_loop_inv today l t :
  for_each (select_step_ordered today) l [] = Ok t →
  NoDup t.*1 ∧ nearest_inv today l (list_to_map t).
Proof.
  intros Hrun.
  apply (for_each_inv (select_step_ordered today)
           (λ done t, NoDup t.*1 ∧ nearest_inv today done (list_to_map t)))
    with (done := []) (l := l) (s := []); [| |done].
  - clear. intros done t f t' [Hnd Hinv] Hstep.
    pose proof (select_step_ordered_refines today t f) as Href.
    rewrite Hstep in Href. destruct Href as [Hg Hnd'].
    split; [by apply Hnd'|].
    assert (is_Some (name f)) as Hname.
    { unfold select_step in Hg. by destruct (name f). }
    destruct (nearest_inv_step today done _ f Hname Hinv)
      as (fbs' & Hg' & Hinv').
    rewrite Hg in Hg'. injection Hg' as <-. exact Hinv'.
  - split; [constructor|apply nearest_inv_empty].
Qed.

Lemma ordered_loop_Ok_iff today l :
  (∃ t, for_each (select_step_ordered today) l [] = Ok t) ↔
  Forall (λ f, is_Some (name f)) l.
Proof.
  split.
  - intros [t Hrun].
    eapply (for_each_Ok_inv (select_step_ordered today)); [|done].
    intros s f s' Hs. unfold select_step_ordered in Hs.
    by destruct (name f).
  - intros Hnames.
    destruct (for_each_progress (select_step_ordered today)
                (λ done t, nearest_inv today done (list_to_map t)) l)
      with (done := @nil Instrument) (s := @nil (string * Instrument))
      as (t & Hrun & _); [| apply nearest_inv_empty |by exists t].
    intros done t f Hf Hinv.
    rewrite Forall_forall in Hnames.
    destruct (nearest_inv_step today done _ f (Hnames f Hf) Hinv)
      as (fbs' & Hg & Hinv').
    pose proof (select_step_ordered_refines today t f) as Href.
    destruct (select_step_ordered today t f) as [t'|e].
    + exists t'. split; [done|]. destruct Href as [Hg' _].
      rewrite Hg in Hg'. injection Hg' as <-. exact Hinv'.
    + congruence.
Qed.

(** The ordered dictionary and the mapping of the selection agree. *)
Lemma ordered_loop_is_futures_by_symbol today targets nfo t :
  for_each (select_step_ordered today)
           (filter (is_future_of targets) nfo) [] = Ok t →
  futures_by_symbol today targets nfo = Ok (list_to_map t).
Proof.
  unfold futures_by_symbol.
  generalize (filter (is_future_of targets) nfo). intros l.
  change (∅ : gmap string Instrument) with
    (list_to_map (@nil (string * Instrument)) : gmap string Instrument).
  generalize (@nil (string * Instrument)). revert t.
  induction l as [|f l IH]; intros t t0 Hrun.
  - simpl in *. by simplify_eq.
  - simpl in *.
    pose proof (select_step_ordered_refines today t0 f) as Href.
    destruct (select_step_ordered today t0 f) as [t1|e]; [|done].
    destruct Href as [-> _]. simpl in *. by apply IH.
Qed.
End scanner_table.

(** ** The answer of [scanner_fetch] *)

Section scanner_answer.
Import Scanner ScannerFetch ScannerRows.

Lemma batch_rows_all quotes batch : ∀ acc,
  Forall (λ f, is_Some (name f)) batch →
  batch_rows quotes batch acc = acc ++ omap (row_of quotes) batch.
Proof.
  induction batch as [|f batch IH]; intros acc Hnames.
  - simpl. by rewrite app_nil_r.
  - apply Forall_cons in Hnames as [[n Hn] Hnames].
    simpl. unfold row_of, fut_row. rewrite Hn.
    rewrite IH by done. by rewrite <- (assoc_L (++)).
Qed.

Lemma scan_fold kite fut_list :
  Forall (λ f, is_Some (name f)) fut_list →
  ∀ idxs acc,
    foldl (scan_batch kite fut_list) acc idxs
    = acc ++ concat ((λ i, block_rows kite
                             (take OptionChain.batch_size (drop i fut_list)))
                       <$> idxs).
Proof.
  intros Hnames. induction idxs as [|i idxs IH]; intros acc.
  - simpl. by rewrite app_nil_r.
  - simpl. rewrite IH. unfold scan_batch, block_rows.
    destruct (s_quote kite _) as [quotes|e].
    + rewrite batch_rows_all by (by apply Forall_take, Forall_drop).
      by rewrite <- (assoc_L (++)).
    + done.
Qed.

Lemma scan_rows_blocks kite fut_list :
  Forall (λ f, is_Some (name f)) fut_list →
  foldl (scan_batch kite fut_list) []
        (OptionChain.py_range 0 (length fut_list) OptionChain.batch_size)
  = concat (block_rows kite <$> blocks 200 fut_list).
Proof.
  intros Hnames. rewrite scan_fold by done. simpl.
  rewrite py_range_blocks. unfold blocks.
  by rewrite <- !list_fmap_compose.
Qed.

(** A [200] of the scanner comes from a fetched catalog and a selection
    loop that ran to its end. *)
Lemma scanner_fetch_Json kite today symbols_str resp :
  scanner_fetch kite today symbols_str = Json resp →
  ∃ nfo fbs,
    s_instruments kite "NFO" = Ok nfo ∧
    for_each (select_step_ordered today)
             (filter (is_future_of (target_symbols symbols_str nfo)) nfo) []
    = Ok fbs ∧
    resp = {| sr_futures :=
                foldl (scan_batch kite fbs.*2) []
                      (OptionChain.py_range 0 (length fbs.*2)
                                            OptionChain.batch_size);
              sr_symbols := target_symbols symbols_str nfo;
              sr_count :=
                length (foldl (scan_batch kite fbs.*2) []
                          (OptionChain.py_range 0 (length fbs.*2)
                                                OptionChain.batch_size)) |}.
Proof.
  unfold scanner_fetch, try_scanner_fetch.
  destruct (s_instruments kite "NFO") as [nfo|e]; [|done]. simpl.
  destruct (for_each _ _ _) as [fbs|e] eqn:Hrun; [|done]. simpl.
  intros [= <-]. by exists nfo, fbs.
Qed.

(** Every entry of the table is a future that has its symbol as name. *)
Lemma table_entries today l t :
  for_each (select_step_ordered today) l [] = Ok t →
  ∀ sym f, (sym, f) ∈ t →
    (list_to_map t : gmap string Instrument) !! sym = Some f ∧
    upper <$> name f = Some sym.
Proof.
  intros Hrun sym f Hin.
  destruct (ordered_loop_inv _ _ _ Hrun) as [Hnd Hinv].
  assert ((list_to_map t : gmap string Instrument) !! sym = Some f) as Hl
    by (by apply elem_of_list_to_map_1).
  split; [done|]. specialize (Hinv sym). rewrite Hl in Hinv.
  by destruct Hinv as (_ & ? & _).
Qed.

Lemma table_names today l t :
  for_each (select_step_ordered today) l [] = Ok t →
  Forall (λ f, is_Some (name f)) t.*2.
Proof.
  intros Hrun. apply Forall_fmap, Forall_forall. intros [sym f] Hin.
  destruct (table_entries _ _ _ Hrun sym f Hin) as [_ Hn]. simpl.
  destruct (name f); [by eexists|done].
Qed.



(** The scanner answers 200 exactly when the catalog was fetched and every
    future of a requested symbol has a name: a quote call that raises
    never turns the answer into an error. *)
Theorem scanner_answers_200_iff kite today symbols_str :
  (∃ resp, scanner_fetch kite today symbols_str = Json resp) ↔
  ∃ nfo, s_instruments kite "NFO" = Ok nfo ∧
         Forall (λ f, is_Some (name f))
                (filter (is_future_of (target_symbols symbols_str nfo)) nfo).
Proof.
  split.
  - intros [resp Hresp].
    apply scanner_fetch_Json in Hresp as (nfo & fbs & Hcat & Hrun & _).
    exists nfo. split; [done|]. apply (ordered_loop_Ok_iff today).
    by exists fbs.
  - intros (nfo & Hcat & Hnames).
    apply (ordered_loop_Ok_iff today) in Hnames as [fbs Hrun].
    unfold scanner_fetch, try_scanner_fetch. rewrite Hcat. simpl.
    rewrite Hrun. simpl. by eexists.
Qed.
End scanner_answer.

Section scanner_rows.
Import Scanner ScannerFetch ScannerRows.

Lemma fmap_concat {A B} (f : A → B) (ls : list (list A)) :
  f <$> concat ls = concat ((λ l : list A, f <$> l) <$> ls).
Proof.
  induction ls as [|l ls IH]; [done|].
  simpl. by rewrite fmap_app, IH.
Qed.

Lemma sublist_concat_fmap {A B} (F G : A → list B) (l : list A) :
  (∀ x, F x `sublist_of` G x) →
  concat (F <$> l) `sublist_of` concat (G <$> l).
Proof.
  intros HFG. induction l as [|x l IH]; [done|].
  simpl. by apply sublist_app.
Qed.

Lemma concat_blocks_all {A} (l : list A) n :
  (0 < n)%nat → concat (blocks n l) = l.
Proof.
  intros Hn. unfold blocks. rewrite concat_blocks.
  apply take_ge. by apply ceil_div_covers.
Qed.

Lemma elem_of_block {A} (l : list A) n b x :
  b ∈ blocks n l → x ∈ b → x ∈ l.
Proof.
  unfold blocks. intros (j & -> & _)%list_elem_of_fmap Hx.
  eapply elem_of_sublist; [done|].
  etrans; [apply sublist_take|apply sublist_drop].
Qed.

(** The symbol a row is made with. *)
Lemma row_of_symbol quotes f row :
  row_of quotes f = Some row →
  upper <$> name f = Some (fr_symbol row) ∧
  fr_tradingsymbol row = tradingsymbol f ∧
  fr_instrument_token row = instrument_token f ∧
  fr_expiry row = isoformat <$> expiry f ∧
  fr_lot_size row = default 0 (lot_size f).
Proof.
  unfold row_of, fut_row. destruct (name f) as [n|]; [|done].
  by intros [= <-].
Qed.

Lemma block_rows_symbols kite batch :
  fr_symbol <$> block_rows kite batch
  `sublist_of` (λ f, upper (default "" (name f))) <$> batch.
Proof.
  unfold block_rows. destruct (s_quote kite _) as [quotes|e];
    [|apply sublist_nil_l].
  induction batch as [|f batch IH]; [done|].
  change (omap (row_of quotes) (f :: batch))
    with (match row_of quotes f with
          | Some row => row :: omap (row_of quotes) batch
          | None => omap (row_of quotes) batch
          end).
  destruct (row_of quotes f) as [row|] eqn:Hrow.
  - apply row_of_symbol in Hrow as [Hsym _].
    rewrite !fmap_cons. destruct (name f) as [n|]; [|done].
    simpl in *. injection Hsym as ->. by apply sublist_skip.
  - rewrite fmap_cons. by apply sublist_cons.
Qed.

Lemma table_symbols today l t :
  for_each (select_step_ordered today) l [] = Ok t →
  (λ f, upper (default "" (name f))) <$> t.*2 = t.*1.
Proof.
  intros Hrun. pose proof (table_entries _ _ _ Hrun) as Hent.
  assert (Forall (λ p : string * Instrument,
                    upper (default "" (name p.2)) = p.1) t) as Hall.
  { apply Forall_forall. intros [sym f] Hin.
    destruct (Hent sym f Hin) as [_ Hn]. simpl.
    destruct (name f); simpl in *; congruence. }
  clear -Hall. induction Hall as [|[sym f] t Hp _ IH]; [done|].
  rewrite !fmap_cons. simpl in *. by rewrite Hp, IH.
Qed.

(** The answer has at most one row per symbol, and the row of a symbol is
    made from the future of that symbol that expires first among those
    that expire on or after [today]: a future of the catalog, of a
    requested symbol, whose trading symbol, token, lot size and expiry the
    row carries. *)
Theorem scanner_rows_are_nearest_futures kite today symbols_str resp :
  scanner_fetch kite today symbols_str = Json resp →
  ∃ nfo,
    s_instruments kite "NFO" = Ok nfo ∧
    sr_symbols resp = target_symbols symbols_str nfo ∧
    NoDup (fr_symbol <$> sr_futures resp) ∧
    ∀ row, row ∈ sr_futures resp →
      ∃ f e,
        f ∈ nfo ∧ instrument_type f = Some "FUT" ∧
        upper <$> name f = Some (fr_symbol row) ∧
        fr_symbol row ∈ sr_symbols resp ∧
        fr_tradingsymbol row = tradingsymbol f ∧
        fr_instrument_token row = instrument_token f ∧
        fr_lot_size row = default 0 (lot_size f) ∧
        expiry f = Some e ∧ fr_expiry row = Some (isoformat e) ∧
        date_le today e ∧
        ∀ g ge, g ∈ nfo → instrument_type g = Some "FUT" →
                upper <$> name g = Some (fr_symbol row) →
                expiry g = Some ge → date_le today ge → date_le e ge.
Proof.
  intros Hresp.
  apply scanner_fetch_Json in Hresp as (nfo & fbs & Hcat & Hrun & ->).
  exists nfo. split_and!; [done..| |]; simpl;
    rewrite scan_rows_blocks by (by eapply table_names).
  - rewrite fmap_concat, <- list_fmap_compose.
    eapply sublist_NoDup.
    2: { apply (sublist_concat_fmap _
                  (λ b : list Instrument,
                     (λ f, upper (default "" (name f))) <$> b)).
         intros b. apply block_rows_symbols. }
    rewrite <- fmap_concat, concat_blocks_all by lia.
    rewrite (table_symbols _ _ _ Hrun).
    by destruct (ordered_loop_inv _ _ _ Hrun).
  - intros row (rows & Hrows & Hrow)%elem_of_concat.
    apply list_elem_of_fmap in Hrows as (b & -> & Hb).
    unfold block_rows in Hrow.
    destruct (s_quote kite _) as [quotes|e];
      [|by apply elem_of_nil in Hrow].
    apply list_elem_of_omap in Hrow as (f & Hf & Hrow).
    apply row_of_symbol in Hrow as (Hsym & Hts & Htok & Hexp & Hlot).
    assert (f ∈ fbs.*2) as Hfl by (by eapply elem_of_block).
    apply list_elem_of_fmap in Hfl as ([sym f'] & -> & Hin). simpl in *.
    destruct (table_entries _ _ _ Hrun sym f' Hin) as [Hl Hname].
    destruct (ordered_loop_inv _ _ _ Hrun) as [_ Hinv].
    specialize (Hinv sym). rewrite Hl in Hinv.
    destruct Hinv as (Hdone & _ & e & He & Hup & Hmin).
    apply list_elem_of_filter in Hdone as [[Hty Htarget] Hnfo].
    assert (sym = fr_symbol row) as -> by congruence.
    exists f', e. split_and!; try done.
    + destruct (name f') as [fn|]; simpl in *; [|done].
      injection Hsym as <-. exact Htarget.
    + by rewrite Hexp, He.
    + intros g ge Hg Hgty Hgn Hge Hgup. eapply Hmin; [|done..].
      apply list_elem_of_filter. split; [|done]. split; [done|].
      destruct (name g) as [gn|]; simpl in *; [|done].
      destruct (name f') as [fn|]; simpl in *; [|done].
      injection Hgn as Hgn. injection Hsym as Hsym.
      rewrite Hgn, <- Hsym. exact Htarget.
Qed.

Lemma scanner_rows_are_nearest_futures_witness :
  ∃ nfo,
    s_instruments (Sample.scan_kite []) "NFO" = Ok nfo ∧
    sr_symbols Sample.scan_body = target_symbols "nifty" nfo ∧
    NoDup (fr_symbol <$> sr_futures Sample.scan_body) ∧
    ∀ row, row ∈ sr_futures Sample.scan_body →
      ∃ f e,
        f ∈ nfo ∧ instrument_type f = Some "FUT" ∧
        upper <$> name f = Some (fr_symbol row) ∧
        fr_symbol row ∈ sr_symbols Sample.scan_body ∧
        fr_tradingsymbol row = tradingsymbol f ∧
        fr_instrument_token row = instrument_token f ∧
        fr_lot_size row = default 0 (lot_size f) ∧
        expiry f = Some e ∧ fr_expiry row = Some (isoformat e) ∧
        date_le Sample.today e ∧
        ∀ g ge, g ∈ nfo → instrument_type g = Some "FUT" →
                upper <$> name g = Some (fr_symbol row) →
                expiry g = Some ge → date_le Sample.today ge → date_le e ge.
Proof.
  apply (scanner_rows_are_nearest_futures (Sample.scan_kite []) Sample.today
           "nifty").
  vm_compute. reflexivity.
Defined.
End scanner_rows.

(** ** Strings: [strip] and [split] *)

Section strings.

Lemma append_assoc (a b c : string) : (a +:+ b) +:+ c = a +:+ (b +:+ c).
Proof.
  induction a as [|x a IH]; [done|]. by rewrite !append_cons, IH.
Qed.

Lemma append_nil_r (a : string) : a +:+ EmptyString = a.
Proof. induction a as [|x a IH]; [done|]. by rewrite append_cons, IH. Qed.

Lemma rev_app_append (s1 : string) : ∀ s2,
  String.rev_app s1 s2 = String.rev s1 +:+ s2.
Proof.
  unfold String.rev. induction s1 as [|a s1 IH]; intros s2; [done|].
  simpl. rewrite (IH (String a s2)), (IH (String a EmptyString)).
  by rewrite append_assoc.
Qed.

Lemma rev_cons a s :
  String.rev (String a s) = String.rev s +:+ String a EmptyString.
Proof. unfold String.rev at 1. simpl. apply rev_app_append. Qed.

Lemma rev_append (a b : string) :
  String.rev (a +:+ b) = String.rev b +:+ String.rev a.
Proof.
  induction a as [|x a IH].
  - by rewrite append_nil_r.
  - by rewrite append_cons, !rev_cons, IH, append_assoc.
Qed.

Lemma rev_involutive (s : string) : String.rev (String.rev s) = s.
Proof.
  induction s as [|x s IH]; [done|].
  by rewrite rev_cons, rev_append, IH.
Qed.

Lemma lstrip_starts_clean s : starts_clean (lstrip s).
Proof.
  induction s as [|c s IH]; [done|].
  simpl. by destruct (py_is_space c) eqn:E.
Qed.

Lemma lstrip_of_clean s : starts_clean s → lstrip s = s.
Proof. destruct s as [|c s]; [done|]. simpl. by intros ->. Qed.

Lemma lstrip_suffix s : ∃ w, s = w +:+ lstrip s.
Proof.
  induction s as [|c s [w IH]]; [by exists EmptyString|].
  simpl. destruct (py_is_space c).
  - exists (String c w). by rewrite append_cons, <- IH.
  - by exists EmptyString.
Qed.

Lemma starts_clean_prefix a b : starts_clean (a +:+ b) → starts_clean a.
Proof. by destruct a. Qed.

(** [strip] leaves nothing to strip. *)
Lemma strip_idemp s : strip (strip s) = strip s.
Proof.
  unfold strip.
  set (t := lstrip s). set (u := lstrip (String.rev t)).
  assert (starts_clean (String.rev u)) as Hclean.
  { destruct (lstrip_suffix (String.rev t)) as [w Hw]. fold u in Hw.
    apply (starts_clean_prefix _ (String.rev w)).
    rewrite <- rev_append, <- Hw, rev_involutive. apply lstrip_starts_clean. }
  rewrite (lstrip_of_clean _ Hclean), rev_involutive.
  rewrite (lstrip_of_clean u); [done|apply lstrip_starts_clean].
Qed.

Lemma chars_append a b :
  String.list_ascii_of_string (a +:+ b)
  = String.list_ascii_of_string a ++ String.list_ascii_of_string b.
Proof.
  induction a as [|x a IH]; [done|]. rewrite append_cons. simpl.
  by rewrite IH.
Qed.

Lemma elem_of_chars_rev c s :
  c ∈ String.list_ascii_of_string (String.rev s) ↔
  c ∈ String.list_ascii_of_string s.
Proof.
  induction s as [|x s IH]; [done|].
  rewrite rev_cons, chars_append, elem_of_app, IH. simpl.
  rewrite list_elem_of_singleton, elem_of_cons.
  split; (intros [?|?]; [by right|by left]).
Qed.

Lemma elem_of_chars_lstrip c s :
  c ∈ String.list_ascii_of_string (lstrip s) →
  c ∈ String.list_ascii_of_string s.
Proof.
  destruct (lstrip_suffix s) as [w Hw]. intros Hc.
  rewrite Hw, chars_append. apply elem_of_app. by right.
Qed.

Lemma elem_of_chars_strip c s :
  c ∈ String.list_ascii_of_string (strip s) →
  c ∈ String.list_ascii_of_string s.
Proof.
  unfold strip. intros Hc.
  by apply elem_of_chars_rev, elem_of_chars_lstrip, elem_of_chars_rev,
    elem_of_chars_lstrip in Hc.
Qed.

Lemma split_comma_pieces s p :
  p ∈ split_comma s →
  (","%char ∉ String.list_ascii_of_string p) ∧
  ∀ c, c ∈ String.list_ascii_of_string p →
       c ∈ String.list_ascii_of_string s.
Proof.
  revert p. induction s as [|c s IH]; intros p Hp.
  - simpl in Hp. apply list_elem_of_singleton in Hp as ->.
    split; [by intros ?%elem_of_nil|done].
  - simpl in Hp. case_decide as Hc.
    + apply elem_of_cons in Hp as [->|Hp].
      * split; [by intros ?%elem_of_nil|by intros ? ?%elem_of_nil].
      * destruct (IH p Hp) as [Hno Hsub]. split; [done|].
        intros c' Hc'. simpl. apply elem_of_cons. right. by apply Hsub.
    + destruct (split_comma s) as [|h t] eqn:Hs.
      * apply list_elem_of_singleton in Hp as ->. simpl. split.
        -- intros [?|?%elem_of_nil]%elem_of_cons; [congruence|done].
        -- intros c' [->|?%elem_of_nil]%elem_of_cons; [|done].
           apply elem_of_cons. by left.
      * apply elem_of_cons in Hp as [->|Hp].
        -- destruct (IH h) as [Hno Hsub]; [apply elem_of_cons; by left|].
           simpl. split.
           ++ intros [?|?]%elem_of_cons; [congruence|done].
           ++ intros c' [->|Hc']%elem_of_cons; apply elem_of_cons;
                [by left|right; by apply Hsub].
        -- destruct (IH p) as [Hno Hsub]; [apply elem_of_cons; by right|].
           split; [done|]. intros c' Hc'. simpl. apply elem_of_cons.
           right. by apply Hsub.
Qed.
End strings.

(** ** The symbols handed to the broker *)

Section symbols.
Import Symbols.

(** Every symbol the handlers hand to the broker is a piece of the
    parameter between commas, without the white space around it: it is not
    empty, it has no comma, and stripping it again changes nothing.  The
    symbols keep the order of the parameter. *)
Theorem symbols_are_trimmed_pieces symbols_str x :
  x ∈ parse_symbols symbols_str →
  x ≠ EmptyString ∧ strip x = x ∧
  (","%char ∉ String.list_ascii_of_string x) ∧
  ∃ piece, piece ∈ split_comma symbols_str ∧ x = strip piece.
Proof.
  unfold parse_symbols.
  intros [Hne (piece & -> & Hp)%list_elem_of_fmap]%list_elem_of_filter.
  split_and!; [done|apply strip_idemp| |by exists piece].
  intros Hc%elem_of_chars_strip.
  by destruct (split_comma_pieces _ _ Hp) as [Hno _].
Qed.

Lemma symbols_are_trimmed_pieces_witness :
  "NSE:INFY" ≠ EmptyString ∧ strip "NSE:INFY" = "NSE:INFY" ∧
  (","%char ∉ String.list_ascii_of_string "NSE:INFY") ∧
  ∃ piece, piece ∈ split_comma " NSE:INFY , ,NSE:TCS" ∧
           "NSE:INFY" = strip piece.
Proof.
  apply (symbols_are_trimmed_pieces " NSE:INFY , ,NSE:TCS").
  by_compute.
Defined.




End symbols.
